(** * Operator-generating units of [elemental.h]

    The header is a library of empty class templates.  Each template
    contributes operator definitions to the type [T] that derives from it,
    and the larger "bundles" are pure multiple-inheritance compositions of
    the smaller ones.

    The development has two layers.

    - A _composition_ layer: every [struct] of the header is transcribed as
      an entry of [instantiate], giving its base classes and the operators
      it defines, with the operator bodies kept as small syntax trees.
      Partial specialisation on [U = T] is the [if ty_eqb T U] at the head
      of an entry.  On top of it: the inheritance closure of a class, the
      classes instantiated for a composition, the operators a composition
      derives and those it requires of the composing type.
    - A _behaviour_ layer: each operator body as a function of the
      primitive operations it is built from, with explicit state passing
      where the body mutates its argument.  The evaluator [run] gives the
      syntax trees of the composition layer their meaning, and the
      [_denotes] lemmas check each function against the body it renders. *)

From Stdlib Require Import List String Bool Arith ZArith Lia.
Import ListNotations.

Set Implicit Arguments.

(* ================================================================== *)
(** * Composition layer: syntax *)
(* ================================================================== *)

(** Template arguments are type names. *)
Definition ty := string.
Definition ty_eqb : ty -> ty -> bool := String.eqb.

(** Comparison operators [<  >  <=  >=  ==  !=]. *)
Inductive cmpop := Less | Greater | LessEq | GreaterEq | Equal | NotEqual.

(** Binary operators [*  +  -  /  %  ^  &  |  <<  >>]. *)
Inductive binop :=
  Times | Plus | Minus | Divide | Modulo | BitXor | BitAnd | BitOr
| ShiftL | ShiftR.

Inductive opsym :=
| Cmp (c : cmpop)          (* x c y *)
| Bin (b : binop)          (* x b y *)
| Assign (b : binop)       (* x b= y *)
| PreInc | PreDec          (* ++x, --x *)
| PostInc | PostDec        (* x++, x-- *)
| Deref                    (* *x *)
| Arrow                    (* x-> *)
| Subscript                (* x[n] *)
| Construct.               (* T copy(x) *)

(** Names that occur in operator bodies: the parameters [x], [y], [n], the
    unnamed [int] of a postfix operator, [*this] and the local [copy]. *)
Inductive operand := X | Y | N | Unnamed | This | Copy.

Inductive expr :=
| Var (v : operand)
| Call1 (o : opsym) (a : expr)
| Call2 (o : opsym) (a b : expr)
| ToBool (e : expr)                    (* static_cast<bool>(e) *)
| Not (e : expr)                       (* !e *)
| AndAlso (e1 e2 : expr)               (* e1 && e2 *)
| OrElse (e1 e2 : expr)                (* e1 || e2 *)
| AddressOf (e : expr).                (* addressof(e) *)

Inductive stmt :=
| Return (e : expr)                    (* return e; *)
| Local (t : ty) (init : expr) (k : stmt)   (* t copy(init); k *)
| Do (e : expr) (k : stmt).            (* e; k *)

(** An operator definition.  [d_this] is [Some T] for a member operator of a
    unit whose self type is [T] (the body reaches the object through
    [static_cast<const T&>( *this )]) and [None] for a [friend]. *)
Record opdef := {
  d_this   : option ty;
  d_ret    : ty;
  d_op     : opsym;
  d_params : list (operand * ty);
  d_body   : stmt
}.

Inductive unit_name :=
| less_than_comparable | equality_comparable
| multipliable | addable
| subtractable | rsubtractable
| dividable | rdividable
| modable | rmodable
| xorable | andable | orable
| left_shiftable | right_shiftable
| incrementable | decrementable
| dereferenceable | subscriptable
| equivalent | partially_ordered
| totally_ordered
| additive | multiplicative | integer_multiplicative
| arithmetic | integer_arithmetic
| bitwise | unit_steppable | shiftable
| ring_operators | ordered_ring_operators
| field_operators | ordered_field_operators
| euclidian_ring_operators | ordered_euclidian_ring_operators
| euclidean_ring_operators | ordered_euclidean_ring_operators
| input_iteratable | output_iteratable | forward_iteratable
| bidirectional_iteratable | random_access_iteratable
| operators
| iterator_helper
| input_iterator_helper | output_iterator_helper
| forward_iterator_helper | bidirectional_iterator_helper
| random_access_iterator_helper.

(** A template instantiation [name<args>]. *)
Record inst := { i_unit : unit_name; i_args : list ty }.

Notation "u << a , .. , b >>" :=
  {| i_unit := u; i_args := cons a .. (cons b nil) .. |}
  (at level 1, a at level 9, b at level 9, format "u << a ,  .. ,  b >>").

(** What one instantiated [struct] contributes: its direct bases, the
    operators it defines and its member type aliases. *)
Record struct_def := {
  s_bases   : list inst;
  s_ops     : list opdef;
  s_aliases : list (string * ty)
}.

Definition compose (bases : list inst) : struct_def :=
  {| s_bases := bases; s_ops := []; s_aliases := [] |}.

Definition generate (ops : list opdef) : struct_def :=
  {| s_bases := []; s_ops := ops; s_aliases := [] |}.

(* ================================================================== *)
(** * Composition layer: the header, struct by struct *)
(* ================================================================== *)

Definition friend_bool (op : cmpop) (p q : operand * ty) (e : expr) : opdef :=
  {| d_this := None; d_ret := "bool"%string; d_op := Cmp op;
     d_params := [p; q]; d_body := Return e |}.

Definition cmp (op : cmpop) (a b : operand) : expr :=
  Call2 (Cmp op) (Var a) (Var b).

(** [T copy(src); copy op= rhs; return copy;] *)
Definition copy_assign (T : ty) (src : operand) (op : binop) (rhs : operand)
  : stmt :=
  Local T (Var src)
    (Do (Call2 (Assign op) (Var Copy) (Var rhs))
    (Return (Var Copy))).

(** [friend T operator op(const A& x, const B& y)] with that body. *)
Definition friend_binary (T : ty) (op : binop) (A B : ty)
    (src rhs : operand) : opdef :=
  {| d_this := None; d_ret := T; d_op := Bin op;
     d_params := [(X, A); (Y, B)];
     d_body := copy_assign T src op rhs |}.

(** [T copy(x); ++x; return copy;] for [friend T operator++(T& x, int)]. *)
Definition friend_postfix (T : ty) (post pre : opsym) : opdef :=
  {| d_this := None; d_ret := T; d_op := post;
     d_params := [(X, T); (Unnamed, "int"%string)];
     d_body := Local T (Var X) (Do (Call1 pre (Var X)) (Return (Var Copy))) |}.

Definition less_than_comparable_def (T U : ty) : struct_def :=
  if ty_eqb T U then
    generate
      [ friend_bool Greater   (X, T) (Y, T) (cmp Less Y X);
        friend_bool LessEq    (X, T) (Y, T) (Not (ToBool (cmp Less Y X)));
        friend_bool GreaterEq (X, T) (Y, T) (Not (ToBool (cmp Less X Y))) ]
  else
    generate
      [ friend_bool LessEq    (X, T) (Y, U) (Not (ToBool (cmp Greater X Y)));
        friend_bool GreaterEq (X, T) (Y, U) (Not (ToBool (cmp Less X Y)));
        friend_bool Greater   (X, U) (Y, T) (cmp Less Y X);
        friend_bool Less      (X, U) (Y, T) (cmp Greater Y X);
        friend_bool LessEq    (X, U) (Y, T) (Not (ToBool (cmp Less Y X)));
        friend_bool GreaterEq (X, U) (Y, T) (Not (ToBool (cmp Greater Y X))) ].

Definition equality_comparable_def (T U : ty) : struct_def :=
  if ty_eqb T U then
    generate
      [ friend_bool NotEqual (X, T) (Y, T) (Not (ToBool (cmp Equal X Y))) ]
  else
    generate
      [ friend_bool Equal    (Y, U) (X, T) (cmp Equal X Y);
        friend_bool NotEqual (Y, U) (X, T) (Not (ToBool (cmp Equal X Y)));
        friend_bool NotEqual (Y, T) (X, U) (Not (ToBool (cmp Equal Y X))) ].

Definition PYCPP_BINARY_OPERATOR_COMMUTATIVE (op : binop) (T U : ty)
  : struct_def :=
  if ty_eqb T U then
    generate [ friend_binary T op T T X Y ]
  else
    generate [ friend_binary T op T U X Y;
               friend_binary T op U T Y X ].

(** The macro defines [name] (first component) and [r##name] (second). *)
Definition PYCPP_BINARY_OPERATOR_NON_COMMUTATIVE (op : binop) (T U : ty)
  : struct_def * struct_def :=
  ( (if ty_eqb T U then generate [ friend_binary T op T T X Y ]
     else generate [ friend_binary T op T U X Y ]),
    generate [ friend_binary T op U T X Y ] ).

Definition PYCPP_BINARY_OPERATOR (op : binop) (T U : ty) : struct_def :=
  if ty_eqb T U then
    generate [ friend_binary T op T T X Y ]
  else
    generate [ friend_binary T op T U X Y ].

Definition dereferenceable_def (T P : ty) : struct_def :=
  generate
    [ {| d_this := Some T; d_ret := P; d_op := Arrow; d_params := [];
         d_body := Return (AddressOf (Call1 Deref (Var This))) |} ].

Definition subscriptable_def (T D R : ty) : struct_def :=
  generate
    [ {| d_this := Some T; d_ret := R; d_op := Subscript;
         d_params := [(N, D)];
         d_body := Return (Call1 Deref (Call2 (Bin Plus) (Var This) (Var N))) |} ].

Definition equivalent_def (T U : ty) : struct_def :=
  if ty_eqb T U then
    generate
      [ friend_bool Equal (X, T) (Y, T)
          (AndAlso (Not (ToBool (cmp Less X Y))) (Not (ToBool (cmp Less Y X)))) ]
  else
    generate
      [ friend_bool Equal (X, T) (Y, U)
          (AndAlso (Not (ToBool (cmp Less X Y)))
                   (Not (ToBool (cmp Greater X Y)))) ].

Definition partially_ordered_def (T U : ty) : struct_def :=
  if ty_eqb T U then
    generate
      [ friend_bool Greater   (X, T) (Y, T) (cmp Less Y X);
        friend_bool LessEq    (X, T) (Y, T)
          (OrElse (ToBool (cmp Less X Y)) (ToBool (cmp Equal X Y)));
        friend_bool GreaterEq (X, T) (Y, T)
          (OrElse (ToBool (cmp Less Y X)) (ToBool (cmp Equal X Y))) ]
  else
    generate
      [ friend_bool LessEq    (X, T) (Y, U)
          (OrElse (ToBool (cmp Less X Y)) (ToBool (cmp Equal X Y)));
        friend_bool GreaterEq (X, T) (Y, U)
          (OrElse (ToBool (cmp Greater X Y)) (ToBool (cmp Equal X Y)));
        friend_bool Greater   (X, U) (Y, T) (cmp Less Y X);
        friend_bool Less      (X, U) (Y, T) (cmp Greater Y X);
        friend_bool LessEq    (X, U) (Y, T)
          (OrElse (ToBool (cmp Greater Y X)) (ToBool (cmp Equal Y X)));
        friend_bool GreaterEq (X, U) (Y, T)
          (OrElse (ToBool (cmp Less Y X)) (ToBool (cmp Equal Y X))) ].

(** [output_iterator_helper] defines prefix increment and dereference
    itself; both return the iterator. *)
Definition output_iterator_helper_ops (T : ty) : list opdef :=
  [ {| d_this := Some T; d_ret := T; d_op := Deref; d_params := [];
       d_body := Return (Var This) |};
    {| d_this := Some T; d_ret := T; d_op := PreInc; d_params := [];
       d_body := Return (Var This) |} ].

Definition iterator_helper_def (Category T Distance Pointer Reference : ty)
  : struct_def :=
  {| s_bases := []; s_ops := [];
     s_aliases := [ ("iterator_category", Category);
                    ("value_type", T);
                    ("difference_type", Distance);
                    ("pointer", Pointer);
                    ("reference", Reference) ]%string |}.

(** Template argument lists of the arities the header uses.  A list of the
    wrong length is an ill-formed instantiation. *)
Definition args1 (args : list ty) (k : ty -> struct_def) : option struct_def :=
  match args with [T] => Some (k T) | _ => None end.
Definition args2 (args : list ty) (k : ty -> ty -> struct_def)
  : option struct_def :=
  match args with [T; U] => Some (k T U) | _ => None end.
Definition args3 (args : list ty) (k : ty -> ty -> ty -> struct_def)
  : option struct_def :=
  match args with [T; D; R] => Some (k T D R) | _ => None end.
Definition args4 (args : list ty) (k : ty -> ty -> ty -> ty -> struct_def)
  : option struct_def :=
  match args with [T; P; D; R] => Some (k T P D R) | _ => None end.
Definition args5 (args : list ty)
    (k : ty -> ty -> ty -> ty -> ty -> struct_def) : option struct_def :=
  match args with [T; V; D; P; R] => Some (k T V D P R) | _ => None end.

(** The header.  Where the source writes [name<T>] for a template declared
    [template <typename T, typename U = T>], the default argument is written
    out: [name<<T, T>>]. *)
Definition instantiate (i : inst) : option struct_def :=
  let args := i_args i in
  match i_unit i with
  | less_than_comparable => args2 args less_than_comparable_def
  | equality_comparable  => args2 args equality_comparable_def
  | multipliable  => args2 args (PYCPP_BINARY_OPERATOR_COMMUTATIVE Times)
  | addable       => args2 args (PYCPP_BINARY_OPERATOR_COMMUTATIVE Plus)
  | subtractable  =>
      args2 args (fun T U =>
        fst (PYCPP_BINARY_OPERATOR_NON_COMMUTATIVE Minus T U))
  | rsubtractable =>
      args2 args (fun T U =>
        snd (PYCPP_BINARY_OPERATOR_NON_COMMUTATIVE Minus T U))
  | dividable     =>
      args2 args (fun T U =>
        fst (PYCPP_BINARY_OPERATOR_NON_COMMUTATIVE Divide T U))
  | rdividable    =>
      args2 args (fun T U =>
        snd (PYCPP_BINARY_OPERATOR_NON_COMMUTATIVE Divide T U))
  | modable       =>
      args2 args (fun T U =>
        fst (PYCPP_BINARY_OPERATOR_NON_COMMUTATIVE Modulo T U))
  | rmodable      =>
      args2 args (fun T U =>
        snd (PYCPP_BINARY_OPERATOR_NON_COMMUTATIVE Modulo T U))
  | xorable       => args2 args (PYCPP_BINARY_OPERATOR_COMMUTATIVE BitXor)
  | andable       => args2 args (PYCPP_BINARY_OPERATOR_COMMUTATIVE BitAnd)
  | orable        => args2 args (PYCPP_BINARY_OPERATOR_COMMUTATIVE BitOr)
  | left_shiftable  => args2 args (PYCPP_BINARY_OPERATOR ShiftL)
  | right_shiftable => args2 args (PYCPP_BINARY_OPERATOR ShiftR)
  | incrementable =>
      args1 args (fun T => generate [ friend_postfix T PostInc PreInc ])
  | decrementable =>
      args1 args (fun T => generate [ friend_postfix T PostDec PreDec ])
  | dereferenceable => args2 args dereferenceable_def
  | subscriptable   => args3 args subscriptable_def
  | equivalent        => args2 args equivalent_def
  | partially_ordered => args2 args partially_ordered_def
  | totally_ordered => args2 args (fun T U =>
      if ty_eqb T U
      then compose [ less_than_comparable<<T, T>>; equality_comparable<<T, T>> ]
      else compose [ less_than_comparable<<T, U>>; equality_comparable<<T, U>> ])
  | additive => args2 args (fun T U =>
      if ty_eqb T U
      then compose [ addable<<T, T>>; subtractable<<T, T>> ]
      else compose [ addable<<T, U>>; subtractable<<T, U>> ])
  | multiplicative => args2 args (fun T U =>
      if ty_eqb T U
      then compose [ multipliable<<T, T>>; dividable<<T, T>> ]
      else compose [ multipliable<<T, U>>; dividable<<T, U>> ])
  | integer_multiplicative => args2 args (fun T U =>
      if ty_eqb T U
      then compose [ multiplicative<<T, T>>; modable<<T, T>> ]
      else compose [ multiplicative<<T, U>>; modable<<T, U>> ])
  | arithmetic => args2 args (fun T U =>
      if ty_eqb T U
      then compose [ additive<<T, T>>; multiplicative<<T, T>> ]
      else compose [ additive<<T, U>>; multiplicative<<T, U>> ])
  | integer_arithmetic => args2 args (fun T U =>
      if ty_eqb T U
      then compose [ additive<<T, T>>; integer_multiplicative<<T, T>> ]
      else compose [ additive<<T, U>>; integer_multiplicative<<T, U>> ])
  | bitwise => args2 args (fun T U =>
      if ty_eqb T U
      then compose [ xorable<<T, T>>; andable<<T, T>>; orable<<T, T>> ]
      else compose [ xorable<<T, U>>; andable<<T, U>>; orable<<T, U>> ])
  | unit_steppable => args1 args (fun T =>
      compose [ incrementable<<T>>; decrementable<<T>> ])
  | shiftable => args2 args (fun T U =>
      if ty_eqb T U
      then compose [ left_shiftable<<T, T>>; right_shiftable<<T, T>> ]
      else compose [ left_shiftable<<T, U>>; right_shiftable<<T, U>> ])
  | ring_operators => args2 args (fun T U =>
      if ty_eqb T U
      then compose [ additive<<T, T>>; multipliable<<T, T>> ]
      else compose [ additive<<T, U>>; rsubtractable<<T, U>>;
                     multipliable<<T, U>> ])
  | ordered_ring_operators => args2 args (fun T U =>
      if ty_eqb T U
      then compose [ ring_operators<<T, T>>; totally_ordered<<T, T>> ]
      else compose [ ring_operators<<T, U>>; totally_ordered<<T, U>> ])
  | field_operators => args2 args (fun T U =>
      if ty_eqb T U
      then compose [ ring_operators<<T, T>>; dividable<<T, T>> ]
      else compose [ ring_operators<<T, U>>; dividable<<T, U>>;
                     rdividable<<T, U>> ])
  | ordered_field_operators => args2 args (fun T U =>
      if ty_eqb T U
      then compose [ field_operators<<T, T>>; totally_ordered<<T, T>> ]
      else compose [ field_operators<<T, U>>; totally_ordered<<T, U>> ])
  | euclidian_ring_operators => args2 args (fun T U =>
      if ty_eqb T U
      then compose [ ring_operators<<T, T>>; dividable<<T, T>>;
                     modable<<T, T>> ]
      else compose [ ring_operators<<T, U>>; dividable<<T, U>>;
                     rdividable<<T, U>>; modable<<T, U>>; rmodable<<T, U>> ])
  | ordered_euclidian_ring_operators => args2 args (fun T U =>
      if ty_eqb T U
      then compose [ totally_ordered<<T, T>>;
                     euclidian_ring_operators<<T, T>> ]
      else compose [ totally_ordered<<T, U>>;
                     euclidian_ring_operators<<T, U>> ])
  | euclidean_ring_operators => args2 args (fun T U =>
      if ty_eqb T U
      then compose [ ring_operators<<T, T>>; dividable<<T, T>>;
                     modable<<T, T>> ]
      else compose [ ring_operators<<T, U>>; dividable<<T, U>>;
                     rdividable<<T, U>>; modable<<T, U>>; rmodable<<T, U>> ])
  | ordered_euclidean_ring_operators => args2 args (fun T U =>
      if ty_eqb T U
      then compose [ totally_ordered<<T, T>>;
                     euclidean_ring_operators<<T, T>> ]
      else compose [ totally_ordered<<T, U>>;
                     euclidean_ring_operators<<T, U>> ])
  | input_iteratable => args2 args (fun T P =>
      compose [ equality_comparable<<T, T>>; incrementable<<T>>;
                dereferenceable<<T, P>> ])
  | output_iteratable => args1 args (fun T =>
      compose [ incrementable<<T>> ])
  | forward_iteratable => args2 args (fun T P =>
      compose [ input_iteratable<<T, P>> ])
  | bidirectional_iteratable => args2 args (fun T P =>
      compose [ forward_iteratable<<T, P>>; decrementable<<T>> ])
  | random_access_iteratable => args4 args (fun T P D R =>
      compose [ bidirectional_iteratable<<T, P>>;
                less_than_comparable<<T, T>>;
                additive<<T, D>>;
                subscriptable<<T, D, R>> ])
  | operators => args2 args (fun T U =>
      if ty_eqb T U
      then compose [ totally_ordered<<T, T>>; integer_arithmetic<<T, T>>;
                     bitwise<<T, T>>; unit_steppable<<T>> ]
      else compose [ totally_ordered<<T, U>>; integer_arithmetic<<T, U>>;
                     bitwise<<T, U>> ])
  | iterator_helper => args5 args iterator_helper_def
  | input_iterator_helper => args5 args (fun T V D P R =>
      compose [ input_iteratable<<T, P>>;
                iterator_helper<<"input_iterator_tag"%string, V, D, P, R>> ])
  | output_iterator_helper => args1 args (fun T =>
      {| s_bases := [ output_iteratable<<T>>;
                      iterator_helper<<"output_iterator_tag"%string,
                                       "void"%string, "void"%string,
                                       "void"%string, "void"%string>> ];
         s_ops := output_iterator_helper_ops T;
         s_aliases := [] |})
  | forward_iterator_helper => args5 args (fun T V D P R =>
      compose [ forward_iteratable<<T, P>>;
                iterator_helper<<"forward_iterator_tag"%string, V, D, P, R>> ])
  | bidirectional_iterator_helper => args5 args (fun T V D P R =>
      compose [ bidirectional_iteratable<<T, P>>;
                iterator_helper<<"bidirectional_iterator_tag"%string,
                                 V, D, P, R>> ])
  | random_access_iterator_helper => args5 args (fun T V D P R =>
      compose [ random_access_iteratable<<T, P, D, R>>;
                iterator_helper<<"random_access_iterator_tag"%string,
                                 V, D, P, R>> ])
  end.

Definition bases (i : inst) : list inst :=
  match instantiate i with Some s => s_bases s | None => [] end.

Definition own_ops (i : inst) : list opdef :=
  match instantiate i with Some s => s_ops s | None => [] end.

(* ================================================================== *)
(** * Composition layer: inheritance closure and defined operators *)
(* ================================================================== *)

Scheme Equality for cmpop.
Scheme Equality for binop.
Scheme Equality for opsym.
Scheme Equality for unit_name.

Fixpoint list_eqb {A} (eqb : A -> A -> bool) (l1 l2 : list A) : bool :=
  match l1, l2 with
  | [], [] => true
  | a :: l1, b :: l2 => eqb a b && list_eqb eqb l1 l2
  | _, _ => false
  end.

(** Two instantiations are the same class when the template and all the
    arguments agree. *)
Definition inst_eqb (i j : inst) : bool :=
  unit_name_beq (i_unit i) (i_unit j) && list_eqb ty_eqb (i_args i) (i_args j).

(** Length of the longest inheritance chain below a template, itself
    included. *)
Definition height (u : unit_name) : nat :=
  match u with
  | totally_ordered | additive | multiplicative | bitwise | unit_steppable
  | shiftable | input_iteratable | output_iteratable => 2
  | integer_multiplicative | arithmetic | ring_operators
  | forward_iteratable | input_iterator_helper | output_iterator_helper => 3
  | integer_arithmetic | ordered_ring_operators | field_operators
  | euclidian_ring_operators | euclidean_ring_operators
  | bidirectional_iteratable | forward_iterator_helper => 4
  | ordered_field_operators | ordered_euclidian_ring_operators
  | ordered_euclidean_ring_operators | random_access_iteratable | operators
  | bidirectional_iterator_helper => 5
  | random_access_iterator_helper => 6
  | _ => 1
  end.

(** Every base-class subobject of [i], [i] first, in declaration order.  A
    class reached along two inheritance paths is listed twice. *)
Fixpoint lineage_upto (fuel : nat) (i : inst) : list inst :=
  match fuel with
  | 0 => []
  | S fuel => i :: flat_map (lineage_upto fuel) (bases i)
  end.

Definition lineage (i : inst) : list inst :=
  lineage_upto (height (i_unit i)) i.

(** A class template is instantiated once per argument list, whatever the
    number of paths that reach it. *)
Fixpoint dedup (l : list inst) : list inst :=
  match l with
  | [] => []
  | i :: l => if existsb (inst_eqb i) l then dedup l else i :: dedup l
  end.

Definition instantiations (roots : list inst) : list inst :=
  dedup (flat_map lineage roots).

(** The operators a type obtains by deriving from [roots]: those of every
    class instantiated on the way. *)
Definition derived_ops (roots : list inst) : list opdef :=
  flat_map own_ops (instantiations roots).

(** ** Signatures and the operators a body calls *)

Definition signature : Type := opsym * list (option ty).

Definition sig_of (d : opdef) : signature :=
  (d_op d,
   match d_this d with Some T => [Some T] | None => [] end
   ++ map (fun p => Some (snd p)) (d_params d)).

Definition operand_eqb (a b : operand) : bool :=
  match a, b with
  | X, X | Y, Y | N, N | Unnamed, Unnamed | This, This | Copy, Copy => true
  | _, _ => false
  end.

Fixpoint lookup (v : operand) (env : list (operand * ty)) : option ty :=
  match env with
  | [] => None
  | (w, t) :: env => if operand_eqb v w then Some t else lookup v env
  end.

(** The static type of an operand expression, when the header fixes it:
    that of a named object.  The type of a nested call is whatever the
    overload chosen for it returns. *)
Definition type_of (env : list (operand * ty)) (e : expr) : option ty :=
  match e with
  | Var v => lookup v env
  | _ => None
  end.

Fixpoint calls_expr (env : list (operand * ty)) (e : expr) : list signature :=
  match e with
  | Var _ => []
  | Call1 o a => calls_expr env a ++ [(o, [type_of env a])]
  | Call2 o a b =>
      calls_expr env a ++ calls_expr env b
      ++ [(o, [type_of env a; type_of env b])]
  | ToBool e | Not e | AddressOf e => calls_expr env e
  | AndAlso e1 e2 | OrElse e1 e2 => calls_expr env e1 ++ calls_expr env e2
  end.

Fixpoint calls_stmt (env : list (operand * ty)) (s : stmt) : list signature :=
  match s with
  | Return e => calls_expr env e
  | Local t init k =>
      calls_expr env init ++ [(Construct, [Some t; type_of env init])]
      ++ calls_stmt ((Copy, t) :: env) k
  | Do e k => calls_expr env e ++ calls_stmt env k
  end.

Definition calls (d : opdef) : list signature :=
  calls_stmt
    (match d_this d with Some T => [(This, T)] | None => [] end ++ d_params d)
    (d_body d).

Definition option_eqb {A} (eqb : A -> A -> bool) (a b : option A) : bool :=
  match a, b with
  | Some a, Some b => eqb a b
  | None, None => true
  | _, _ => false
  end.

Definition sig_eqb (s t : signature) : bool :=
  opsym_beq (fst s) (fst t) && list_eqb (option_eqb ty_eqb) (snd s) (snd t).

Definition defines (ops : list opdef) (s : signature) : bool :=
  existsb (fun d => sig_eqb (sig_of d) s) ops.

Fixpoint dedup_sig (l : list signature) : list signature :=
  match l with
  | [] => []
  | s :: l => if existsb (sig_eqb s) l then dedup_sig l else s :: dedup_sig l
  end.

(** The operators the bodies of [ops] call and [ops] does not itself define:
    those the composing type has to supply.  A call is matched with a
    definition of the same operator on the same operand types; implicit
    conversions between operand types are not considered. *)
Definition required (ops : list opdef) : list signature :=
  dedup_sig (filter (fun s => negb (defines ops s)) (flat_map calls ops)).

(* ================================================================== *)
(** * Behaviour layer: the operator bodies as functions *)
(* ================================================================== *)

(** An object of a class type is represented by its value.  Copy
    construction [T copy(x)] binds [copy] to the value of [x]; a compound
    assignment [copy op= y] or a prefix step [++x] is the function giving
    the new value of the object it is applied to.  Comparison results are
    the [bool] that [static_cast<bool>] or the [bool] return type makes of
    them. *)

(** ** [less_than_comparable<T, U>], primary template *)
Module less_than_comparable_TU.
Section Unit.
Variables T U : Type.
(** [t < u] and [t > u]: neither is defined by the unit. *)
Variable lt : T -> U -> bool.
Variable gt : T -> U -> bool.

Definition operator_le (x : T) (y : U) : bool := negb (gt x y).
Definition operator_ge (x : T) (y : U) : bool := negb (lt x y).
Definition operator_gt_r (x : U) (y : T) : bool := lt y x.
Definition operator_lt_r (x : U) (y : T) : bool := gt y x.
Definition operator_le_r (x : U) (y : T) : bool := negb (lt y x).
Definition operator_ge_r (x : U) (y : T) : bool := negb (gt y x).
End Unit.
End less_than_comparable_TU.

(** ** [less_than_comparable<T, T>] *)
Module less_than_comparable_TT.
Section Unit.
Variable T : Type.
Variable lt : T -> T -> bool.

Definition operator_gt (x y : T) : bool := lt y x.
Definition operator_le (x y : T) : bool := negb (lt y x).
Definition operator_ge (x y : T) : bool := negb (lt x y).
End Unit.
End less_than_comparable_TT.

(** ** [equality_comparable] *)
Module equality_comparable_TU.
Section Unit.
Variables T U : Type.
Variable eq : T -> U -> bool.

Definition operator_eq_r (y : U) (x : T) : bool := eq x y.
Definition operator_ne_r (y : U) (x : T) : bool := negb (eq x y).
Definition operator_ne (y : T) (x : U) : bool := negb (eq y x).
End Unit.
End equality_comparable_TU.

Module equality_comparable_TT.
Section Unit.
Variable T : Type.
Variable eq : T -> T -> bool.

Definition operator_ne (x y : T) : bool := negb (eq x y).
End Unit.
End equality_comparable_TT.

(** ** [equivalent] *)
Module equivalent_TU.
Section Unit.
Variables T U : Type.
Variable lt : T -> U -> bool.
Variable gt : T -> U -> bool.

Definition operator_eq (x : T) (y : U) : bool :=
  negb (lt x y) && negb (gt x y).
End Unit.
End equivalent_TU.

Module equivalent_TT.
Section Unit.
Variable T : Type.
Variable lt : T -> T -> bool.

Definition operator_eq (x y : T) : bool :=
  negb (lt x y) && negb (lt y x).
End Unit.
End equivalent_TT.

(** ** The binary operator macros *)
Module binary_operator.
Section Forward.
Variables T U : Type.
(** [copy op= y] for [copy : T], [y : U]. *)
Variable op_assign : T -> U -> T.

(** [friend T operator op(const T& x, const U& y)] *)
Definition operator_op (x : T) (y : U) : T :=
  let copy := x in
  let copy := op_assign copy y in
  copy.

(** [friend T operator op(const U& x, const T& y)] of the commutative
    macro. *)
Definition operator_op_swapped (x : U) (y : T) : T :=
  let copy := y in
  let copy := op_assign copy x in
  copy.
End Forward.

Section Reversed.
Variables T U : Type.
(** [T copy(x)] for [x : U] is a converting construction. *)
Variable convert : U -> T.
(** [copy op= y] for [copy : T], [y : T]. *)
Variable op_assign : T -> T -> T.

(** [friend T operator op(const U& x, const T& y)] of [r##name]. *)
Definition operator_rop (x : U) (y : T) : T :=
  let copy := convert x in
  let copy := op_assign copy y in
  copy.
End Reversed.
End binary_operator.

(** ** [incrementable], [decrementable] *)

(** The postfix operators take [x] by reference.  The referenced object is
    a cell of the store; the cell also counts how often a prefix operator
    has been applied to it. *)
Module step.
Section Unit.
Variable T : Type.
Variable pre_inc : T -> T.      (* ++x *)
Variable pre_dec : T -> T.      (* --x *)

Record cell := { object : T; inc_calls : nat; dec_calls : nat }.

Definition State (A : Type) : Type := cell -> A * cell.
Definition ret {A} (a : A) : State A := fun c => (a, c).
Definition bind {A B} (m : State A) (k : A -> State B) : State B :=
  fun c => let (a, c') := m c in k a c'.

Definition read : State T := fun c => (object c, c).
Definition prefix_inc : State unit := fun c =>
  (tt, {| object := pre_inc (object c);
          inc_calls := S (inc_calls c); dec_calls := dec_calls c |}).
Definition prefix_dec : State unit := fun c =>
  (tt, {| object := pre_dec (object c);
          inc_calls := inc_calls c; dec_calls := S (dec_calls c) |}).

(** [friend T operator++(T& x, int)] *)
Definition operator_post_inc : State T :=
  bind read (fun copy =>
  bind prefix_inc (fun _ =>
  ret copy)).

(** [friend T operator--(T& x, int)] *)
Definition operator_post_dec : State T :=
  bind read (fun copy =>
  bind prefix_dec (fun _ =>
  ret copy)).
End Unit.
End step.

(** ** [dereferenceable], [subscriptable] *)
Module accessor.
Section Unit.
Variables T D R P : Type.
Variable plus : T -> D -> T.       (* self + n *)
Variable deref : T -> R.           (* *self *)
Variable addressof : R -> P.

(** [P operator->() const] *)
Definition operator_arrow (self : T) : P := addressof (deref self).

(** [R operator[](I n) const] *)
Definition operator_subscript (self : T) (n : D) : R := deref (plus self n).
End Unit.
End accessor.


(** ** [partially_ordered] *)

(** [partially_ordered<T, U>], primary template: [t < u], [t > u] and
    [t == u] are supplied by [T]. *)
Module partially_ordered_TU.
Section Unit.
Variables T U : Type.
Variable lt : T -> U -> bool.
Variable gt : T -> U -> bool.
Variable eq : T -> U -> bool.

Definition operator_le (x : T) (y : U) : bool := lt x y || eq x y.
Definition operator_ge (x : T) (y : U) : bool := gt x y || eq x y.
Definition operator_gt_r (x : U) (y : T) : bool := lt y x.
Definition operator_lt_r (x : U) (y : T) : bool := gt y x.
Definition operator_le_r (x : U) (y : T) : bool := gt y x || eq y x.
Definition operator_ge_r (x : U) (y : T) : bool := lt y x || eq y x.
End Unit.
End partially_ordered_TU.

(** [partially_ordered<T, T>] *)
Module partially_ordered_TT.
Section Unit.
Variable T : Type.
Variable lt : T -> T -> bool.
Variable eq : T -> T -> bool.

Definition operator_gt (x y : T) : bool := lt y x.
Definition operator_le (x y : T) : bool := lt x y || eq x y.
Definition operator_ge (x y : T) : bool := lt y x || eq x y.
End Unit.
End partially_ordered_TT.


(* ================================================================== *)
(** * Behaviour layer: running the transcribed bodies *)
(* ================================================================== *)

(** The evaluator gives the syntax trees of the composition layer their
    meaning, so that the functions above can be checked against the
    transcription.  A call is resolved first among the operators derived by
    the composed units, by exact signature, and otherwise among the
    operations the operand types supply themselves. *)
Module run.
Section Interpreter.
(** The values of each type. *)
Variable den : ty -> Type.

Inductive value :=
| VBool (b : bool)
| VInt (z : Z)                   (* the unnamed [int] of a postfix call *)
| VObj (t : ty) (v : den t)
| VAddr (v : value).             (* result of [addressof] *)
Arguments VObj : clear implicits.

(** The operations the composing types define themselves.  A compound
    assignment or prefix step is given by the new value of its left
    operand. *)
Record primitives := {
  p_cmp     : cmpop -> forall a b : ty, option (den a -> den b -> bool);
  p_bin     : binop -> forall a b : ty, option (den a -> den b -> value);
  p_assign  : binop -> forall a b : ty, option (den a -> den b -> den a);
  p_inc     : forall a : ty, option (den a -> den a);
  p_dec     : forall a : ty, option (den a -> den a);
  p_deref   : forall a : ty, option (den a -> value);
  p_convert : forall t a : ty, option (den a -> den t)
}.

Variable P : primitives.
(** The derived operators in scope. *)
Variable ops : list opdef.

Definition env : Type := list (operand * value).

Definition tag (v : value) : option ty :=
  match v with
  | VBool _ => Some "bool"%string
  | VInt _ => Some "int"%string
  | VObj t _ => Some t
  | VAddr _ => None
  end.

Fixpoint fetch (v : operand) (e : env) : option value :=
  match e with
  | [] => None
  | (w, x) :: e => if operand_eqb v w then Some x else fetch v e
  end.

Fixpoint store (v : operand) (x : value) (e : env) : env :=
  match e with
  | [] => []
  | (w, y) :: e =>
      if operand_eqb v w then (w, x) :: e else (w, y) :: store v x e
  end.

(** Operands are passed by reference: when the first operand of a call is
    a named object, what the call did to it is written back. *)
Definition write_back (a : expr) (x : value) (e : env) : env :=
  match a with
  | Var v => store v x e
  | _ => e
  end.

(** [t copy(v)]: a copy when [v] already has type [t], a conversion
    supplied by [t] otherwise. *)
Definition construct (t : ty) (v : value) : option value :=
  match v with
  | VObj a x =>
      if ty_eqb a t then Some (VObj a x)
      else match p_convert P t a with
           | Some f => Some (VObj t (f x))
           | None => None
           end
  | _ => None
  end.

(** A call to an operation of the operand types: the result and the first
    operand afterwards. *)
Definition primitive (o : opsym) (args : list value)
  : option (value * value) :=
  match o, args with
  | Cmp c, [VObj a x; VObj b y] =>
      match p_cmp P c a b with
      | Some f => Some (VBool (f x y), VObj a x)
      | None => None
      end
  | Bin op, [VObj a x; VObj b y] =>
      match p_bin P op a b with
      | Some f => Some (f x y, VObj a x)
      | None => None
      end
  | Assign op, [VObj a x; VObj b y] =>
      match p_assign P op a b with
      | Some f => Some (VObj a (f x y), VObj a (f x y))
      | None => None
      end
  | PreInc, [VObj a x] =>
      match p_inc P a with
      | Some f => Some (VObj a (f x), VObj a (f x))
      | None => None
      end
  | PreDec, [VObj a x] =>
      match p_dec P a with
      | Some f => Some (VObj a (f x), VObj a (f x))
      | None => None
      end
  | Deref, [VObj a x] =>
      match p_deref P a with
      | Some f => Some (f x, VObj a x)
      | None => None
      end
  | _, _ => None
  end.

Definition resolve (o : opsym) (args : list value) : option opdef :=
  find (fun d => sig_eqb (sig_of d) (o, map tag args)) ops.

Definition formals (d : opdef) : list operand :=
  match d_this d with Some _ => [This] | None => [] end
  ++ map fst (d_params d).

Definition bind_args (d : opdef) (args : list value) : option env :=
  if Nat.eqb (List.length (formals d)) (List.length args)
  then Some (combine (formals d) args)
  else None.

Definition first_after (d : opdef) (e : env) : option value :=
  match formals d with
  | v :: _ => fetch v e
  | [] => None
  end.

(** One level of evaluation; [eval] and [call] evaluate what lies below. *)
Definition eval_step
    (eval : env -> expr -> option (value * env))
    (call : opsym -> list value -> option (value * value))
    (e : env) (x : expr) : option (value * env) :=
  match x with
  | Var v =>
      match fetch v e with Some r => Some (r, e) | None => None end
  | Call1 o a =>
      match eval e a with
      | Some (va, e1) =>
          match call o [va] with
          | Some (r, a') => Some (r, write_back a a' e1)
          | None => None
          end
      | None => None
      end
  | Call2 o a b =>
      match eval e a with
      | Some (va, e1) =>
          match eval e1 b with
          | Some (vb, e2) =>
              match call o [va; vb] with
              | Some (r, a') => Some (r, write_back a a' e2)
              | None => None
              end
          | None => None
          end
      | None => None
      end
  | ToBool a =>
      match eval e a with
      | Some (VBool b, e1) => Some (VBool b, e1)
      | _ => None
      end
  | Not a =>
      match eval e a with
      | Some (VBool b, e1) => Some (VBool (negb b), e1)
      | _ => None
      end
  | AndAlso a b =>
      match eval e a with
      | Some (VBool true, e1) =>
          match eval e1 b with
          | Some (VBool c, e2) => Some (VBool c, e2)
          | _ => None
          end
      | Some (VBool false, e1) => Some (VBool false, e1)
      | _ => None
      end
  | OrElse a b =>
      match eval e a with
      | Some (VBool true, e1) => Some (VBool true, e1)
      | Some (VBool false, e1) =>
          match eval e1 b with
          | Some (VBool c, e2) => Some (VBool c, e2)
          | _ => None
          end
      | _ => None
      end
  | AddressOf a =>
      match eval e a with
      | Some (r, e1) => Some (VAddr r, e1)
      | None => None
      end
  end.

Definition exec_step
    (eval : env -> expr -> option (value * env))
    (exec : env -> stmt -> option (value * env))
    (e : env) (s : stmt) : option (value * env) :=
  match s with
  | Return x => eval e x
  | Local t init k =>
      match eval e init with
      | Some (v, e1) =>
          match construct t v with
          | Some c => exec ((Copy, c) :: e1) k
          | None => None
          end
      | None => None
      end
  | Do x k =>
      match eval e x with
      | Some (_, e1) => exec e1 k
      | None => None
      end
  end.

(** The result of [o(args)] and the first operand afterwards. *)
Definition call_step
    (exec : env -> stmt -> option (value * env))
    (o : opsym) (args : list value) : option (value * value) :=
  match resolve o args with
  | Some d =>
      match bind_args d args with
      | Some e =>
          match exec e (d_body d) with
          | Some (r, e') =>
              match first_after d e' with
              | Some a' => Some (r, a')
              | None => None
              end
          | None => None
          end
      | None => None
      end
  | None => primitive o args
  end.

(** Bodies call operators whose bodies call operators: the depth of
    evaluation is bounded by [fuel]. *)
Fixpoint eval (fuel : nat) (e : env) (x : expr) : option (value * env) :=
  match fuel with
  | 0 => None
  | S fuel => eval_step (eval fuel) (call fuel) e x
  end
with exec (fuel : nat) (e : env) (s : stmt) : option (value * env) :=
  match fuel with
  | 0 => None
  | S fuel => exec_step (eval fuel) (exec fuel) e s
  end
with call (fuel : nat) (o : opsym) (args : list value)
  : option (value * value) :=
  match fuel with
  | 0 => None
  | S fuel => call_step (exec fuel) o args
  end.
End Interpreter.
End run.

Arguments run.eval : simpl never.
Arguments run.exec : simpl never.
Arguments run.call : simpl never.

(* ================================================================== *)
(** * Notions used in the statements, and sample instances *)
(* ================================================================== *)

(** Operators defined by [less_than_comparable<T, U>], each with the
    operators its body calls. *)
Definition comparison_table (T U : ty) : list (signature * list signature) :=
  map (fun d => (sig_of d, calls d)) (own_ops less_than_comparable<<T, U>>).

(** [x < y] and [y < x] never hold together. *)
Definition asymmetric {T} (lt : T -> T -> bool) : Prop :=
  forall a b, lt a b = true -> lt b a = false.

(** [t < u] and [t > u] never hold together. *)
Definition exclusive {T U} (lt gt : T -> U -> bool) : Prop :=
  forall a b, lt a b = true -> gt a b = false.

(** Strict weak order: irreflexive, transitive, and incomparability is
    transitive. *)
Record strict_weak_order {T} (lt : T -> T -> bool) : Prop := {
  swo_irrefl : forall x, lt x x = false;
  swo_trans : forall x y z, lt x y = true -> lt y z = true -> lt x z = true;
  swo_incomparable : forall x y z,
      lt x y = false -> lt y x = false ->
      lt y z = false -> lt z y = false ->
      lt x z = false /\ lt z x = false
}.

(** The consistency of the derived comparisons of the same-type unit,
    with nothing assumed of the primitive [<]. *)
Definition ordering_property_unconditional : Prop :=
  forall (T : Type) (lt : T -> T -> bool) (x y : T),
    lt x y = true ->
    less_than_comparable_TT.operator_gt lt y x = true /\
    less_than_comparable_TT.operator_le lt x y = true /\
    less_than_comparable_TT.operator_ge lt y x = true /\
    less_than_comparable_TT.operator_gt lt x y = false /\
    (x <> y -> less_than_comparable_TT.operator_ge lt x y = false).

(** [T = Z] against [U = nat]. *)
Definition Z_lt_nat (a : Z) (b : nat) : bool := Z.ltb a (Z.of_nat b).
Definition Z_gt_nat (a : Z) (b : nat) : bool := Z.ltb (Z.of_nat b) a.

(** A sample ordering that is a strict weak order without being total:
    pairs compared on their first component. *)
Definition by_key (a b : Z * Z) : bool := Z.ltb (fst a) (fst b).

(** The same pairs against a bare key. *)
Definition key_lt (a : Z * Z) (k : Z) : bool := Z.ltb (fst a) k.
Definition key_gt (a : Z * Z) (k : Z) : bool := Z.ltb k (fst a).

(** An iterator into an array: the array and a position.  Dereferencing a
    position outside the array yields nothing. *)
Definition array_iterator : Type := list Z * nat.
Definition array_advance (it : array_iterator) (n : nat) : array_iterator :=
  (fst it, snd it + n).
Definition array_deref (it : array_iterator) : option Z :=
  nth_error (fst it) (snd it).

(** The invocations of [PYCPP_BINARY_OPERATOR_COMMUTATIVE]. *)
Definition commutative_generators : list (unit_name * binop) :=
  [ (multipliable, Times); (addable, Plus);
    (xorable, BitXor); (andable, BitAnd); (orable, BitOr) ].

(** Number of definitions of the operator with signature [s]. *)
Definition count_defs (s : signature) (ops : list opdef) : nat :=
  List.length (filter (fun d => sig_eqb (sig_of d) s) ops).

Definition is_unit (u : unit_name) (i : inst) : bool :=
  unit_name_beq (i_unit i) u.

(** Integer-valued objects, for running the operators on examples: every
    type is a counter, and dereferencing a counter yields its count. *)
Definition Zden (t : ty) : Type := Z.

Definition Zprims : run.primitives Zden :=
  {| run.p_cmp := fun c _ _ =>
       match c with
       | Less => Some Z.ltb
       | Greater => Some Z.gtb
       | Equal => Some Z.eqb
       | _ => None
       end;
     run.p_bin := fun _ _ _ => None;
     run.p_assign := fun op _ _ =>
       match op with
       | Plus => Some Z.add
       | Minus => Some Z.sub
       | Times => Some Z.mul
       | Divide => Some Z.quot
       | Modulo => Some Z.rem
       | _ => None
       end;
     run.p_inc := fun _ => Some Z.succ;
     run.p_dec := fun _ => Some Z.pred;
     run.p_deref := fun _ => Some (fun z => run.VObj Zden "value"%string z);
     run.p_convert := fun _ _ => Some (fun z => z) |}.

(* ================================================================== *)
(** * Notions used in the further properties *)
(* ================================================================== *)

(** The reversed units [r##name] of the non-commutative macro. *)
Definition is_reversed (u : unit_name) : bool :=
  match u with
  | rsubtractable | rdividable | rmodable => true
  | _ => false
  end.

(** The signatures of a list of operators. *)
Definition signatures (ops : list opdef) : list signature := map sig_of ops.

Fixpoint distinctb {A} (eqb : A -> A -> bool) (l : list A) : bool :=
  match l with
  | [] => true
  | a :: l => negb (existsb (eqb a) l) && distinctb eqb l
  end.

(** The invocations of [PYCPP_BINARY_OPERATOR_NON_COMMUTATIVE]: [name],
    [r##name] and the operator. *)
Definition non_commutative_generators : list (unit_name * unit_name * binop) :=
  [ (subtractable, rsubtractable, Minus);
    (dividable, rdividable, Divide);
    (modable, rmodable, Modulo) ].

(** The forward generators of the three macros, with their operator. *)
Definition forward_generators : list (unit_name * binop) :=
  [ (multipliable, Times); (addable, Plus);
    (subtractable, Minus); (dividable, Divide); (modable, Modulo);
    (xorable, BitXor); (andable, BitAnd); (orable, BitOr);
    (left_shiftable, ShiftL); (right_shiftable, ShiftR) ].

(** Exactly one of [x < y], [x == y], [y < x] holds. *)
Definition trichotomous {T} (lt eq : T -> T -> bool) : Prop :=
  forall x y,
    (lt x y = true /\ eq x y = false /\ lt y x = false) \/
    (lt x y = false /\ eq x y = true /\ lt y x = false) \/
    (lt x y = false /\ eq x y = false /\ lt y x = true).

(** Exactly one of [t < u], [t == u], [t > u] holds. *)
Definition trichotomous2 {T U} (lt gt eq : T -> U -> bool) : Prop :=
  forall x y,
    (lt x y = true /\ eq x y = false /\ gt x y = false) \/
    (lt x y = false /\ eq x y = true /\ gt x y = false) \/
    (lt x y = false /\ eq x y = false /\ gt x y = true).

(** At most one of [t < u], [t == u], [t > u] holds. *)
Definition at_most_one {T U} (lt gt eq : T -> U -> bool) : Prop :=
  forall x y,
    (lt x y = true -> eq x y = false /\ gt x y = false) /\
    (eq x y = true -> gt x y = false).

(** Neither [x < y] nor [y < x] nor [x == y]. *)
Definition incomparable {T} (lt eq : T -> T -> bool) (x y : T) : Prop :=
  lt x y = false /\ lt y x = false /\ eq x y = false.

Record strict_partial_order {T} (lt : T -> T -> bool) : Prop := {
  spo_irrefl : forall x, lt x x = false;
  spo_trans : forall x y z, lt x y = true -> lt y z = true -> lt x z = true
}.

(** [==] holds of equal values and of no others. *)
Definition decides_equality {T} (eq : T -> T -> bool) : Prop :=
  forall x y, eq x y = true <-> x = y.

(** Pairs of integers under the componentwise order, a partial order that
    is not total. *)
Definition pair_eq (a b : Z * Z) : bool :=
  Z.eqb (fst a) (fst b) && Z.eqb (snd a) (snd b).
Definition pair_lt (a b : Z * Z) : bool :=
  Z.leb (fst a) (fst b) && Z.leb (snd a) (snd b) && negb (pair_eq a b).

(** [Z] against [nat], compared as integers. *)
Definition Z_eq_nat (a : Z) (b : nat) : bool := Z.eqb a (Z.of_nat b).

(** The member type aliases a type inherits. *)
Definition own_aliases (i : inst) : list (string * ty) :=
  match instantiate i with Some s => s_aliases s | None => [] end.

Definition aliases (roots : list inst) : list (string * ty) :=
  flat_map own_aliases (instantiations roots).

(** A type that defines no operation of its own. *)
Definition bare (den : ty -> Type) : run.primitives den :=
  {| run.p_cmp := fun _ _ _ => None;
     run.p_bin := fun _ _ _ => None;
     run.p_assign := fun _ _ _ => None;
     run.p_inc := fun _ => None;
     run.p_dec := fun _ => None;
     run.p_deref := fun _ => None;
     run.p_convert := fun _ _ => None |}.


(* ================================================================== *)
(** * Properties of the composition layer *)
(* ================================================================== *)

(** ** Type names and the choice of the specialisation *)

Lemma ty_eqb_refl (T : ty) : ty_eqb T T = true.
Proof. apply String.eqb_refl. Qed.

Lemma ty_eqb_neq (T U : ty) : T <> U -> ty_eqb T U = false.
Proof. intro H. apply String.eqb_neq. exact H. Qed.

Lemma ty_eqb_sym (T U : ty) : ty_eqb U T = ty_eqb T U.
Proof. apply String.eqb_sym. Qed.

(** The specialisation is selected exactly when the two arguments are the
    same type. *)
Lemma ty_eqb_spec (T U : ty) : reflect (T = U) (ty_eqb T U).
Proof. apply String.eqb_spec. Qed.

(** Decides the comparisons of type names in the goal: a name against
    itself, and two names known to differ. *)
Ltac decide_types :=
  repeat (progress
    (rewrite ?ty_eqb_refl;
     repeat match goal with
       | H : ty_eqb ?a ?b = false |- context [ty_eqb ?a ?b] => rewrite H
       | H : ty_eqb ?a ?b = false |- context [ty_eqb ?b ?a] =>
           rewrite (ty_eqb_sym a b), H
       end)).

Ltac settle_types :=
  cbn; repeat (progress (decide_types; cbn)).

(** Case analysis on the number of template arguments. *)
Ltac split_args args :=
  destruct args as [|?T [|?U [|?V [|?W [|?Z [|? ?]]]]]].

(** Unfolds the bases of the instantiations in the goal, leaving the test
    [ty_eqb T U] that selects the specialisation. *)
Ltac unfold_bases :=
  unfold bases, instantiate, args1, args2, args3, args4, args5,
    less_than_comparable_def, equality_comparable_def,
    PYCPP_BINARY_OPERATOR_COMMUTATIVE, PYCPP_BINARY_OPERATOR_NON_COMMUTATIVE,
    PYCPP_BINARY_OPERATOR, dereferenceable_def, subscriptable_def,
    equivalent_def, partially_ordered_def, iterator_helper_def,
    compose, generate;
  cbn [i_unit i_args s_bases fst snd].

(** The same for their operators as well. *)
Ltac unfold_header :=
  unfold own_ops, output_iterator_helper_ops; unfold_bases;
  cbn [i_unit i_args s_bases s_ops s_aliases fst snd].

Ltac case_specialisation :=
  match goal with
  | |- context [ty_eqb ?a ?b] => destruct (ty_eqb a b)
  end.

(** ** The inheritance closure is complete *)

(** A direct base sits strictly lower in the hierarchy. *)
Lemma bases_lower (i b : inst) :
  In b (bases i) -> height (i_unit b) < height (i_unit i).
Proof.
  destruct i as [u args].
  destruct u; split_args args; unfold_header; cbn;
    try contradiction;
    try case_specialisation;
    cbn; intuition (subst; cbn; lia).
Qed.

Lemma height_pos (u : unit_name) : 1 <= height u.
Proof. destruct u; cbn; lia. Qed.

Lemma flat_map_agree {A B} (f g : A -> list B) (l : list A) :
  (forall a, In a l -> f a = g a) -> flat_map f l = flat_map g l.
Proof.
  induction l as [|a l IH]; intro H; cbn.
  - reflexivity.
  - rewrite (H a (or_introl eq_refl)). f_equal.
    apply IH. intros b Hb. apply H. right. exact Hb.
Qed.

(** Any two amounts of fuel not below the height of the root yield the same
    closure. *)
Lemma lineage_upto_enough (n m : nat) (i : inst) :
  height (i_unit i) <= n -> height (i_unit i) <= m ->
  lineage_upto n i = lineage_upto m i.
Proof.
  revert m i. induction n as [|n IH]; intros m i Hn Hm.
  - pose proof (height_pos (i_unit i)). lia.
  - destruct m as [|m].
    + pose proof (height_pos (i_unit i)). lia.
    + cbn. f_equal. apply flat_map_agree. intros b Hb.
      apply bases_lower in Hb. apply IH; lia.
Qed.

Lemma lineage_complete (n : nat) (i : inst) :
  height (i_unit i) <= n -> lineage_upto n i = lineage i.
Proof.
  intro H. unfold lineage. apply lineage_upto_enough; [exact H | lia].
Qed.

(** The closure of [i] is [i] followed by the closures of its bases. *)
Lemma lineage_unfold (i : inst) :
  lineage i = i :: flat_map lineage (bases i).
Proof.
  unfold lineage at 1.
  pose proof (height_pos (i_unit i)) as Hp.
  destruct (height (i_unit i)) as [|h] eqn:E; [lia|].
  cbn. f_equal. apply flat_map_agree. intros b Hb.
  apply lineage_complete. apply bases_lower in Hb. lia.
Qed.

(** ** The boolean equalities decide equality *)

Lemma list_eqb_eq {A} (eqb : A -> A -> bool) :
  (forall a b, eqb a b = true -> a = b) ->
  forall l1 l2, list_eqb eqb l1 l2 = true -> l1 = l2.
Proof.
  intros Heq. induction l1 as [|a l1 IH]; intros [|b l2] H; cbn in H;
    try discriminate; [reflexivity|].
  apply andb_prop in H. destruct H as [H1 H2].
  f_equal; [apply Heq; exact H1 | apply IH; exact H2].
Qed.

Lemma list_eqb_refl {A} (eqb : A -> A -> bool) :
  (forall a, eqb a a = true) -> forall l, list_eqb eqb l l = true.
Proof.
  intros Hrefl l. induction l as [|a l IH]; cbn; [reflexivity|].
  rewrite Hrefl, IH. reflexivity.
Qed.

Lemma inst_eqb_true_iff (i j : inst) : inst_eqb i j = true <-> i = j.
Proof.
  destruct i as [u a], j as [v b]. unfold inst_eqb. cbn [i_unit i_args].
  split.
  - intro H. apply andb_prop in H. destruct H as [H1 H2].
    apply internal_unit_name_dec_bl in H1.
    apply (list_eqb_eq ty_eqb) in H2; [subst; reflexivity|].
    intros x y Hxy. apply String.eqb_eq. exact Hxy.
  - intro H. injection H as -> ->.
    rewrite (internal_unit_name_dec_lb (x:=v) (y:=v) eq_refl).
    apply (list_eqb_refl ty_eqb). exact ty_eqb_refl.
Qed.

Lemma sig_eqb_eq (s t : signature) : sig_eqb s t = true -> s = t.
Proof.
  destruct s as [o1 l1], t as [o2 l2]. unfold sig_eqb. cbn [fst snd].
  intro H. apply andb_prop in H. destruct H as [H1 H2].
  apply internal_opsym_dec_bl in H1.
  apply (list_eqb_eq (option_eqb ty_eqb)) in H2.
  - subst. reflexivity.
  - intros [a|] [b|] Hab; cbn in Hab; try discriminate; [|reflexivity].
    apply String.eqb_eq in Hab. subst. reflexivity.
Qed.

(** ** One instantiation per class *)

Lemma dedup_In (l : list inst) (i : inst) : In i (dedup l) <-> In i l.
Proof.
  induction l as [|j l IH]; cbn; [tauto|].
  destruct (existsb (inst_eqb j) l) eqn:E; cbn; rewrite IH; [|tauto].
  split; [tauto|]. intros [H|H]; [|exact H].
  subst j. apply existsb_exists in E. destruct E as (k & Hk & Hik).
  apply inst_eqb_true_iff in Hik. subst k. exact Hk.
Qed.

Lemma dedup_NoDup (l : list inst) : NoDup (dedup l).
Proof.
  induction l as [|j l IH]; cbn; [constructor|].
  destruct (existsb (inst_eqb j) l) eqn:E; [exact IH|].
  constructor; [|exact IH].
  intro H. apply (proj1 (dedup_In l j)) in H.
  assert (Hex : existsb (inst_eqb j) l = true).
  { apply existsb_exists. exists j. split; [exact H|].
    apply inst_eqb_true_iff. reflexivity. }
  congruence.
Qed.

(** The instantiations are the classes of the closure, each once. *)
Lemma instantiations_spec (roots : list inst) (i : inst) :
  In i (instantiations roots) <-> exists r, In r roots /\ In i (lineage r).
Proof.
  unfold instantiations. rewrite dedup_In. apply in_flat_map.
Qed.

(** ** Required operators *)

Lemma dedup_sig_keeps (s : signature) (l : list signature) :
  In s l -> In s (dedup_sig l).
Proof.
  induction l as [|t l IH]; cbn; [tauto|].
  intros [H|H].
  - subst t. destruct (existsb (sig_eqb s) l) eqn:E.
    + apply IH. apply existsb_exists in E. destruct E as (u & Hu & Hsu).
      apply sig_eqb_eq in Hsu. subst u. exact Hu.
    + left. reflexivity.
  - destruct (existsb (sig_eqb t) l); [|right]; apply IH; exact H.
Qed.

(** An operator that a body calls and no unit defines is required. *)
Lemma required_intro (ops : list opdef) (s : signature) :
  In s (flat_map calls ops) -> defines ops s = false -> In s (required ops).
Proof.
  intros Hin Hdef. unfold required. apply dedup_sig_keeps.
  apply filter_In. split; [exact Hin|]. rewrite Hdef. reflexivity.
Qed.

(** ** Computing closures and derived operators, level by level *)

Ltac expand_lineage :=
  repeat (rewrite lineage_unfold; unfold_bases; decide_types;
          cbn [flat_map app s_bases s_ops fst snd]).

Ltac dedup_instantiations :=
  repeat (progress
    (cbn [dedup existsb inst_eqb unit_name_beq list_eqb i_unit i_args
          andb orb];
     decide_types)).

(** The operators of an explicit list of instantiations. *)
Ltac list_ops :=
  cbn [flat_map]; unfold_header; decide_types;
  cbn [app s_bases s_ops fst snd].

Ltac compute_derived_ops :=
  unfold derived_ops, instantiations; cbn [flat_map app];
  expand_lineage; dedup_instantiations; list_ops.

Lemma random_access_lineage (T P D R : ty) :
  lineage random_access_iteratable<<T, P, D, R>> =
  [ random_access_iteratable<<T, P, D, R>>;
    bidirectional_iteratable<<T, P>>; forward_iteratable<<T, P>>;
    input_iteratable<<T, P>>; equality_comparable<<T, T>>;
    incrementable<<T>>; dereferenceable<<T, P>>; decrementable<<T>>;
    less_than_comparable<<T, T>>;
    additive<<T, D>>; addable<<T, D>>; subtractable<<T, D>>;
    subscriptable<<T, D, R>> ].
Proof.
  destruct (ty_eqb T D) eqn:E.
  - apply String.eqb_eq in E. subst D. expand_lineage. reflexivity.
  - expand_lineage. reflexivity.
Qed.

Lemma random_access_instantiations (T P D R : ty) :
  instantiations [ random_access_iteratable<<T, P, D, R>> ] =
  lineage random_access_iteratable<<T, P, D, R>>.
Proof.
  unfold instantiations. cbn [flat_map].
  rewrite app_nil_r, random_access_lineage.
  reflexivity.
Qed.

(** A type deriving from [totally_ordered<T>] and from
    [bidirectional_iteratable<T, P>]. *)
Lemma ordered_bidirectional_lineage (T P : ty) :
  flat_map lineage
    [ totally_ordered<<T, T>>; bidirectional_iteratable<<T, P>> ] =
  [ totally_ordered<<T, T>>; less_than_comparable<<T, T>>;
    equality_comparable<<T, T>>;
    bidirectional_iteratable<<T, P>>; forward_iteratable<<T, P>>;
    input_iteratable<<T, P>>; equality_comparable<<T, T>>;
    incrementable<<T>>; dereferenceable<<T, P>>; decrementable<<T>> ].
Proof. cbn [flat_map app]. expand_lineage. reflexivity. Qed.

Lemma ordered_bidirectional_instantiations (T P : ty) :
  instantiations
    [ totally_ordered<<T, T>>; bidirectional_iteratable<<T, P>> ] =
  [ totally_ordered<<T, T>>; less_than_comparable<<T, T>>;
    bidirectional_iteratable<<T, P>>; forward_iteratable<<T, P>>;
    input_iteratable<<T, P>>; equality_comparable<<T, T>>;
    incrementable<<T>>; dereferenceable<<T, P>>; decrementable<<T>> ].
Proof.
  unfold instantiations. rewrite ordered_bidirectional_lineage.
  dedup_instantiations. reflexivity.
Qed.

(* ================================================================== *)
(** * Properties of the evaluator *)
(* ================================================================== *)

(** ** Evaluation, one level at a time *)

Lemma run_eval_S den (P : run.primitives den) ops fuel e x :
  run.eval P ops (S fuel) e x =
  run.eval_step (run.eval P ops fuel) (run.call P ops fuel) e x.
Proof. reflexivity. Qed.

Lemma run_exec_S den (P : run.primitives den) ops fuel e s :
  run.exec P ops (S fuel) e s =
  run.exec_step P (run.eval P ops fuel) (run.exec P ops fuel) e s.
Proof. reflexivity. Qed.

Lemma run_call_S den (P : run.primitives den) ops fuel o args :
  run.call P ops (S fuel) o args =
  run.call_step P ops (run.exec P ops fuel) o args.
Proof. reflexivity. Qed.

(** ** More fuel never changes a result *)

Section Fuel.
Variable den : ty -> Type.
Variable P : run.primitives den.
Variable ops : list opdef.

Abbreviation env := (run.env den).
Abbreviation value := (run.value den).

Ltac follow Hev Hcl :=
  repeat match goal with
    | H : match ?f ?e ?a with _ => _ end = Some _ |- _ =>
        let E := fresh "E" in
        destruct (f e a) as [[? ?]|] eqn:E; [|discriminate H];
        first [apply Hev in E | apply Hcl in E]; rewrite E
    | H : match ?v with run.VBool _ _ => _ | _ => _ end = Some _ |- _ =>
        destruct v; try discriminate H
    | H : (if ?b then _ else _) = Some _ |- _ => destruct b
    end.

Lemma eval_step_mono
    (ev ev' : env -> expr -> option (value * env))
    (cl cl' : opsym -> list value -> option (value * value)) :
  (forall e x r, ev e x = Some r -> ev' e x = Some r) ->
  (forall o a r, cl o a = Some r -> cl' o a = Some r) ->
  forall e x r,
    run.eval_step ev cl e x = Some r -> run.eval_step ev' cl' e x = Some r.
Proof.
  intros Hev Hcl e x r H.
  destruct x; cbn in *; follow Hev Hcl; try exact H; try discriminate H.
Qed.

Lemma exec_step_mono
    (ev ev' : env -> expr -> option (value * env))
    (ex ex' : env -> stmt -> option (value * env)) :
  (forall e x r, ev e x = Some r -> ev' e x = Some r) ->
  (forall e s r, ex e s = Some r -> ex' e s = Some r) ->
  forall e s r,
    run.exec_step P ev ex e s = Some r -> run.exec_step P ev' ex' e s = Some r.
Proof.
  intros Hev Hex e s r H.
  destruct s as [x | t init k | x k]; cbn in *.
  - apply Hev. exact H.
  - destruct (ev e init) as [[v e1]|] eqn:E; [|discriminate H].
    apply Hev in E. rewrite E.
    destruct (run.construct P t v); [|discriminate H].
    apply Hex. exact H.
  - destruct (ev e x) as [[v e1]|] eqn:E; [|discriminate H].
    apply Hev in E. rewrite E. apply Hex. exact H.
Qed.

Lemma call_step_mono
    (ex ex' : env -> stmt -> option (value * env)) :
  (forall e s r, ex e s = Some r -> ex' e s = Some r) ->
  forall o args r,
    run.call_step P ops ex o args = Some r ->
    run.call_step P ops ex' o args = Some r.
Proof.
  intros Hex o args r H. unfold run.call_step in *.
  destruct (run.resolve ops o args) as [d|]; [|exact H].
  destruct (run.bind_args d args) as [e|]; [|discriminate H].
  destruct (ex e (d_body d)) as [[v e']|] eqn:E; [|discriminate H].
  apply Hex in E. rewrite E. exact H.
Qed.

Lemma fuel_succ (n : nat) :
  (forall e x r, run.eval P ops n e x = Some r ->
                 run.eval P ops (S n) e x = Some r) /\
  (forall e s r, run.exec P ops n e s = Some r ->
                 run.exec P ops (S n) e s = Some r) /\
  (forall o args r, run.call P ops n o args = Some r ->
                    run.call P ops (S n) o args = Some r).
Proof.
  induction n as [|n (IHev & IHex & IHcl)].
  - repeat split; intros; discriminate.
  - repeat split.
    + intros e x r. rewrite !run_eval_S. apply eval_step_mono; assumption.
    + intros e s r. rewrite !run_exec_S. apply exec_step_mono; assumption.
    + intros o args r. rewrite !run_call_S. apply call_step_mono; assumption.
Qed.

(** A call that returns with some fuel returns the same with more. *)
Lemma call_fuel_mono (n m : nat) o args r :
  n <= m ->
  run.call P ops n o args = Some r -> run.call P ops m o args = Some r.
Proof.
  intros Hle H. induction Hle as [|m Hle IH]; [exact H|].
  apply fuel_succ. exact IH.
Qed.
End Fuel.

(** ** Running a body symbolically *)

Create HintDb run_unfold.
#[local] Hint Unfold run.eval_step run.exec_step run.call_step run.resolve
  run.bind_args run.first_after run.formals run.primitive run.construct
  run.write_back friend_bool friend_binary friend_postfix copy_assign cmp
  sig_eqb sig_of : run_unfold.

Ltac use_primitives :=
  repeat match goal with
         | H : _ = Some _ |- _ => rewrite H
         end.

(** Evaluates one level after the other, deciding the comparisons of type
    names and looking up the primitives met on the way. *)
Ltac run_bodies :=
  unfold_header; settle_types;
  repeat (progress
    (rewrite ?run_call_S, ?run_exec_S, ?run_eval_S;
     autounfold with run_unfold;
     settle_types; use_primitives; settle_types)).

(** Reduces a goal stated for all sufficient fuel to the least fuel needed. *)
Ltac least_fuel H :=
  match type of H with
  | ?k <= _ => apply call_fuel_mono with (n := k); [exact H|]
  end.

(* ================================================================== *)
(** * The functions of the behaviour layer are what the bodies compute *)
(* ================================================================== *)

Section Denotation.
Variable den : ty -> Type.
Variable P : run.primitives den.

Abbreviation obj := (run.VObj den).
Abbreviation boolean := (run.VBool den).

Lemma less_than_comparable_TT_denotes
    (T : ty) (lt : den T -> den T -> bool) (x y : den T) (fuel : nat) :
  run.p_cmp P Less T T = Some lt ->
  7 <= fuel ->
  let ops := own_ops less_than_comparable<<T, T>> in
  run.call P ops fuel (Cmp Greater) [obj T x; obj T y] =
    Some (boolean (less_than_comparable_TT.operator_gt lt x y), obj T x) /\
  run.call P ops fuel (Cmp LessEq) [obj T x; obj T y] =
    Some (boolean (less_than_comparable_TT.operator_le lt x y), obj T x) /\
  run.call P ops fuel (Cmp GreaterEq) [obj T x; obj T y] =
    Some (boolean (less_than_comparable_TT.operator_ge lt x y), obj T x).
Proof.
  intros Hlt Hfuel. cbv zeta.
  repeat split; least_fuel Hfuel; run_bodies; reflexivity.
Qed.

Lemma less_than_comparable_TU_denotes
    (T U : ty) (lt gt : den T -> den U -> bool)
    (x : den T) (y : den U) (fuel : nat) :
  T <> U ->
  run.p_cmp P Less T U = Some lt ->
  run.p_cmp P Greater T U = Some gt ->
  7 <= fuel ->
  let ops := own_ops less_than_comparable<<T, U>> in
  run.call P ops fuel (Cmp LessEq) [obj T x; obj U y] =
    Some (boolean (less_than_comparable_TU.operator_le gt x y), obj T x) /\
  run.call P ops fuel (Cmp GreaterEq) [obj T x; obj U y] =
    Some (boolean (less_than_comparable_TU.operator_ge lt x y), obj T x) /\
  run.call P ops fuel (Cmp Greater) [obj U y; obj T x] =
    Some (boolean (less_than_comparable_TU.operator_gt_r lt y x), obj U y) /\
  run.call P ops fuel (Cmp Less) [obj U y; obj T x] =
    Some (boolean (less_than_comparable_TU.operator_lt_r gt y x), obj U y) /\
  run.call P ops fuel (Cmp LessEq) [obj U y; obj T x] =
    Some (boolean (less_than_comparable_TU.operator_le_r lt y x), obj U y) /\
  run.call P ops fuel (Cmp GreaterEq) [obj U y; obj T x] =
    Some (boolean (less_than_comparable_TU.operator_ge_r gt y x), obj U y).
Proof.
  intros HTU Hlt Hgt Hfuel. apply ty_eqb_neq in HTU. cbv zeta.
  repeat split; least_fuel Hfuel; run_bodies; reflexivity.
Qed.

(** In the two-type unit [x <= y] for [x : T], [y : U] is computed from
    the primitive [T > U]: when the type does not supply it the call has no
    meaning, whatever the fuel. *)
Lemma less_than_comparable_TU_calls_primitive_greater
    (T U : ty) (x : den T) (y : den U) (fuel : nat) :
  T <> U ->
  run.p_cmp P Greater T U = None ->
  run.call P (own_ops less_than_comparable<<T, U>>) fuel (Cmp LessEq)
    [obj T x; obj U y] = None.
Proof.
  intros HTU Hgt. apply ty_eqb_neq in HTU.
  do 7 (destruct fuel as [|fuel];
        [run_bodies; rewrite ?Hgt; reflexivity|]).
  run_bodies. rewrite Hgt. reflexivity.
Qed.

Lemma equality_comparable_TT_denotes
    (T : ty) (eq : den T -> den T -> bool) (x y : den T) (fuel : nat) :
  run.p_cmp P Equal T T = Some eq ->
  7 <= fuel ->
  run.call P (own_ops equality_comparable<<T, T>>) fuel (Cmp NotEqual)
    [obj T x; obj T y] =
  Some (boolean (equality_comparable_TT.operator_ne eq x y), obj T x).
Proof.
  intros Heq Hfuel. least_fuel Hfuel. run_bodies. reflexivity.
Qed.

Lemma equality_comparable_TU_denotes
    (T U : ty) (eq : den T -> den U -> bool)
    (x : den T) (y : den U) (fuel : nat) :
  T <> U ->
  run.p_cmp P Equal T U = Some eq ->
  7 <= fuel ->
  let ops := own_ops equality_comparable<<T, U>> in
  run.call P ops fuel (Cmp Equal) [obj U y; obj T x] =
    Some (boolean (equality_comparable_TU.operator_eq_r eq y x), obj U y) /\
  run.call P ops fuel (Cmp NotEqual) [obj U y; obj T x] =
    Some (boolean (equality_comparable_TU.operator_ne_r eq y x), obj U y) /\
  run.call P ops fuel (Cmp NotEqual) [obj T x; obj U y] =
    Some (boolean (equality_comparable_TU.operator_ne eq x y), obj T x).
Proof.
  intros HTU Heq Hfuel. apply ty_eqb_neq in HTU. cbv zeta.
  repeat split; least_fuel Hfuel; run_bodies; reflexivity.
Qed.

Lemma equivalent_TT_denotes
    (T : ty) (lt : den T -> den T -> bool) (x y : den T) (fuel : nat) :
  run.p_cmp P Less T T = Some lt ->
  8 <= fuel ->
  run.call P (own_ops equivalent<<T, T>>) fuel (Cmp Equal)
    [obj T x; obj T y] =
  Some (boolean (equivalent_TT.operator_eq lt x y), obj T x).
Proof.
  intros Hlt Hfuel. least_fuel Hfuel.
  run_bodies. unfold equivalent_TT.operator_eq.
  destruct (lt x y); cbn; [reflexivity|].
  run_bodies. reflexivity.
Qed.

Lemma equivalent_TU_denotes
    (T U : ty) (lt gt : den T -> den U -> bool)
    (x : den T) (y : den U) (fuel : nat) :
  T <> U ->
  run.p_cmp P Less T U = Some lt ->
  run.p_cmp P Greater T U = Some gt ->
  8 <= fuel ->
  run.call P (own_ops equivalent<<T, U>>) fuel (Cmp Equal)
    [obj T x; obj U y] =
  Some (boolean (equivalent_TU.operator_eq lt gt x y), obj T x).
Proof.
  intros HTU Hlt Hgt Hfuel. apply ty_eqb_neq in HTU. least_fuel Hfuel.
  run_bodies. unfold equivalent_TU.operator_eq.
  destruct (lt x y); cbn; [reflexivity|].
  run_bodies. reflexivity.
Qed.

(** A type deriving from [additive<T>]. *)
Lemma additive_TT_denotes
    (T : ty) (add_assign sub_assign : den T -> den T -> den T)
    (a b : den T) (fuel : nat) :
  run.p_assign P Plus T T = Some add_assign ->
  run.p_assign P Minus T T = Some sub_assign ->
  6 <= fuel ->
  let ops := derived_ops [ additive<<T, T>> ] in
  run.call P ops fuel (Bin Plus) [obj T a; obj T b] =
    Some (obj T (binary_operator.operator_op add_assign a b), obj T a) /\
  run.call P ops fuel (Bin Minus) [obj T a; obj T b] =
    Some (obj T (binary_operator.operator_op sub_assign a b), obj T a).
Proof.
  intros Hadd Hsub Hfuel. cbv zeta. compute_derived_ops.
  split; least_fuel Hfuel; run_bodies; reflexivity.
Qed.

(** A type deriving from [multiplicative<T>]. *)
Lemma multiplicative_TT_denotes
    (T : ty) (mul_assign div_assign : den T -> den T -> den T)
    (a b : den T) (fuel : nat) :
  run.p_assign P Times T T = Some mul_assign ->
  run.p_assign P Divide T T = Some div_assign ->
  6 <= fuel ->
  let ops := derived_ops [ multiplicative<<T, T>> ] in
  run.call P ops fuel (Bin Times) [obj T a; obj T b] =
    Some (obj T (binary_operator.operator_op mul_assign a b), obj T a) /\
  run.call P ops fuel (Bin Divide) [obj T a; obj T b] =
    Some (obj T (binary_operator.operator_op div_assign a b), obj T a).
Proof.
  intros Hmul Hdiv Hfuel. cbv zeta. compute_derived_ops.
  split; least_fuel Hfuel; run_bodies; reflexivity.
Qed.

(** The reversed form of a non-commutative generator converts its left
    operand. *)
Lemma rsubtractable_denotes
    (T U : ty) (convert : den U -> den T)
    (sub_assign : den T -> den T -> den T)
    (x : den U) (y : den T) (fuel : nat) :
  T <> U ->
  run.p_convert P T U = Some convert ->
  run.p_assign P Minus T T = Some sub_assign ->
  6 <= fuel ->
  run.call P (own_ops rsubtractable<<T, U>>) fuel (Bin Minus)
    [obj U x; obj T y] =
  Some (obj T (binary_operator.operator_rop convert sub_assign x y),
        obj U x).
Proof.
  intros HTU Hconv Hsub Hfuel. apply ty_eqb_neq in HTU. least_fuel Hfuel.
  run_bodies. reflexivity.
Qed.

(** [x++] and [x--]: the value returned and the object afterwards are
    those of the state-passing functions. *)
Lemma incrementable_denotes
    (T : ty) (pre_inc : den T -> den T) (c : step.cell (den T))
    (fuel : nat) :
  run.p_inc P T = Some pre_inc ->
  6 <= fuel ->
  run.call P (own_ops incrementable<<T>>) fuel PostInc
    [obj T (step.object c); run.VInt den 0] =
  Some (obj T (fst (step.operator_post_inc pre_inc c)),
        obj T (step.object (snd (step.operator_post_inc pre_inc c)))).
Proof.
  intros Hinc Hfuel. least_fuel Hfuel. run_bodies. reflexivity.
Qed.

Lemma decrementable_denotes
    (T : ty) (pre_dec : den T -> den T) (c : step.cell (den T))
    (fuel : nat) :
  run.p_dec P T = Some pre_dec ->
  6 <= fuel ->
  run.call P (own_ops decrementable<<T>>) fuel PostDec
    [obj T (step.object c); run.VInt den 0] =
  Some (obj T (fst (step.operator_post_dec pre_dec c)),
        obj T (step.object (snd (step.operator_post_dec pre_dec c)))).
Proof.
  intros Hdec Hfuel. least_fuel Hfuel. run_bodies. reflexivity.
Qed.

Lemma dereferenceable_denotes
    (T Ptr R : ty) (deref : den T -> den R) (self : den T) (fuel : nat) :
  run.p_deref P T = Some (fun it => obj R (deref it)) ->
  6 <= fuel ->
  run.call P (own_ops dereferenceable<<T, Ptr>>) fuel Arrow [obj T self] =
  Some (accessor.operator_arrow deref
          (fun r => run.VAddr (obj R r)) self,
        obj T self).
Proof.
  intros Hderef Hfuel. least_fuel Hfuel. run_bodies. reflexivity.
Qed.

(** In a type deriving from [random_access_iteratable<T, P, D, R>] the
    [+] in the body of [operator[]] is the one [addable<T, D>] derives,
    and the call returns what [accessor.operator_subscript] returns. *)
Lemma random_access_subscript_denotes
    (T Ptr D R : ty) (add_assign : den T -> den D -> den T)
    (deref : den T -> den R) (self : den T) (n : den D) (fuel : nat) :
  run.p_assign P Plus T D = Some add_assign ->
  run.p_deref P T = Some (fun it => obj R (deref it)) ->
  10 <= fuel ->
  run.call P (derived_ops [ random_access_iteratable<<T, Ptr, D, R>> ])
    fuel Subscript [obj T self; obj D n] =
  Some (obj R (accessor.operator_subscript
                 (binary_operator.operator_op add_assign) deref self n),
        obj T self).
Proof.
  intros Hadd Hderef Hfuel. least_fuel Hfuel.
  unfold derived_ops.
  rewrite random_access_instantiations, random_access_lineage.
  destruct (ty_eqb T D) eqn:E.
  - apply String.eqb_eq in E. subst D.
    list_ops. run_bodies. reflexivity.
  - list_ops. run_bodies. reflexivity.
Qed.
End Denotation.

(** The operators a counter gets from [random_access_iteratable]. *)
Example counter_operators :
  let ops := derived_ops
    [ random_access_iteratable<<"It", "Ptr", "Diff", "Ref">> ]%string in
  let it := run.VObj Zden "It"%string in
  let n := run.VObj Zden "Diff"%string in
  run.call Zprims ops 10 PostInc [it 41%Z; run.VInt Zden 0] =
    Some (it 41%Z, it 42%Z) /\
  run.call Zprims ops 10 (Bin Plus) [n 4%Z; it 3%Z] =
    Some (it 7%Z, n 4%Z) /\
  run.call Zprims ops 10 Subscript [it 3%Z; n 4%Z] =
    Some (run.VObj Zden "value"%string 7%Z, it 3%Z) /\
  run.call Zprims ops 10 (Cmp LessEq) [it 3%Z; it 3%Z] =
    Some (run.VBool Zden true, it 3%Z) /\
  run.call Zprims ops 10 (Cmp NotEqual) [it 3%Z; it 3%Z] =
    Some (run.VBool Zden false, it 3%Z) /\
  run.call Zprims ops 10 (Bin Minus) [n 4%Z; it 3%Z] = None.
Proof. vm_compute. repeat split. Qed.

(* ================================================================== *)
(** * The ordering family *)
(* ================================================================== *)

(** C1 (as amended): the same-type specialisation of [less_than_comparable]
    derives [>], [<=], [>=] and every body calls the primitive [<] only.
    The primary template for two distinct types derives six operators, of
    which [T >= U], [U > T], [U <= T] call the primitive [T < U] and
    [T <= U], [U < T], [U >= T] call the primitive [T > U]; the composing
    type has to supply both [T < U] and [T > U]. *)
Theorem less_than_comparable_primitives (T U : ty) :
  comparison_table T U =
    (if ty_eqb T U
     then
       [ ((Cmp Greater,   [Some T; Some T]), [(Cmp Less, [Some T; Some T])]);
         ((Cmp LessEq,    [Some T; Some T]), [(Cmp Less, [Some T; Some T])]);
         ((Cmp GreaterEq, [Some T; Some T]), [(Cmp Less, [Some T; Some T])]) ]
     else
       [ ((Cmp LessEq,    [Some T; Some U]),
          [(Cmp Greater, [Some T; Some U])]);
         ((Cmp GreaterEq, [Some T; Some U]),
          [(Cmp Less,    [Some T; Some U])]);
         ((Cmp Greater,   [Some U; Some T]),
          [(Cmp Less,    [Some T; Some U])]);
         ((Cmp Less,      [Some U; Some T]),
          [(Cmp Greater, [Some T; Some U])]);
         ((Cmp LessEq,    [Some U; Some T]),
          [(Cmp Less,    [Some T; Some U])]);
         ((Cmp GreaterEq, [Some U; Some T]),
          [(Cmp Greater, [Some T; Some U])]) ]) /\
  required (own_ops less_than_comparable<<T, U>>) =
    (if ty_eqb T U
     then [ (Cmp Less, [Some T; Some T]) ]
     else [ (Cmp Less, [Some T; Some U]); (Cmp Greater, [Some T; Some U]) ]).
Proof.
  unfold comparison_table, required.
  destruct (ty_eqb T U) eqn:E.
  - apply String.eqb_eq in E. subst U.
    unfold_header. rewrite ty_eqb_refl. split; [reflexivity|].
    unfold sig_eqb, defines. settle_types. reflexivity.
  - unfold_header. rewrite E. split; [reflexivity|].
    unfold sig_eqb, defines. settle_types. reflexivity.
Qed.

(** C1 (counterexample): for two distinct types the unit calls the
    primitive [T > U], so [<] alone is not enough. *)
Lemma less_than_comparable_needs_greater :
  ~ (forall (T U : ty) (s : signature),
        In s (required (own_ops less_than_comparable<<T, U>>)) ->
        fst s = Cmp Less).
Proof.
  intro H.
  specialize (H "T"%string "U"%string
                (Cmp Greater, [Some "T"%string; Some "U"%string])).
  cbn in H. discriminate H. right. left. reflexivity.
Qed.

(** Whatever the primitive [<], [x < y] gives [y > x] and refutes
    [x >= y]: these two are the primitive itself, read from the other side
    and negated. *)
Lemma ordering_unconditional
    (T U : Type) (lt : T -> T -> bool) (lt2 gt2 : T -> U -> bool) :
  (forall x y : T,
      lt x y = true ->
      less_than_comparable_TT.operator_gt lt y x = true /\
      less_than_comparable_TT.operator_ge lt x y = false) /\
  (forall (x : T) (y : U),
      lt2 x y = true ->
      less_than_comparable_TU.operator_gt_r lt2 y x = true /\
      less_than_comparable_TU.operator_ge lt2 x y = false) /\
  (forall (x : U) (y : T),
      less_than_comparable_TU.operator_lt_r gt2 x y = true ->
      gt2 y x = true /\
      less_than_comparable_TU.operator_ge_r gt2 x y = false).
Proof.
  unfold less_than_comparable_TT.operator_gt,
    less_than_comparable_TT.operator_ge,
    less_than_comparable_TU.operator_gt_r, less_than_comparable_TU.operator_ge,
    less_than_comparable_TU.operator_lt_r, less_than_comparable_TU.operator_ge_r.
  repeat split; try assumption; rewrite H; reflexivity.
Qed.

(** C2 (counterexample): with a primitive [<] that holds in both
    directions, [x < y] holds while the derived [x <= y] does not. *)
Lemma ordering_needs_asymmetry : ~ ordering_property_unconditional.
Proof.
  intro H.
  destruct (H bool (fun _ _ => true) false true eq_refl) as (_ & Hle & _).
  discriminate Hle.
Qed.

(** C2 (as amended): when the primitive [<] is asymmetric (same-type unit),
    respectively when the primitives [T < U] and [T > U] exclude each other
    (two-type unit), [x < y] implies [y > x], [x <= y], [y >= x] and refutes
    [x > y] and [x >= y].  In the two-type unit [x < y] is the primitive for
    [x : T], [y : U] and the derived operator for [x : U], [y : T]. *)
Theorem ordering_consistent
    (T U : Type) (lt : T -> T -> bool) (lt2 gt2 : T -> U -> bool)
    (Hasym : asymmetric lt) (Hexcl : exclusive lt2 gt2) :
  (forall x y : T,
      lt x y = true ->
      less_than_comparable_TT.operator_gt lt y x = true /\
      less_than_comparable_TT.operator_le lt x y = true /\
      less_than_comparable_TT.operator_ge lt y x = true /\
      less_than_comparable_TT.operator_gt lt x y = false /\
      less_than_comparable_TT.operator_ge lt x y = false) /\
  (forall (x : T) (y : U),
      lt2 x y = true ->
      less_than_comparable_TU.operator_gt_r lt2 y x = true /\
      less_than_comparable_TU.operator_le gt2 x y = true /\
      less_than_comparable_TU.operator_ge_r gt2 y x = true /\
      gt2 x y = false /\
      less_than_comparable_TU.operator_ge lt2 x y = false) /\
  (forall (x : U) (y : T),
      less_than_comparable_TU.operator_lt_r gt2 x y = true ->
      gt2 y x = true /\
      less_than_comparable_TU.operator_le_r lt2 x y = true /\
      less_than_comparable_TU.operator_ge lt2 y x = true /\
      less_than_comparable_TU.operator_gt_r lt2 x y = false /\
      less_than_comparable_TU.operator_ge_r gt2 x y = false).
Proof.
  unfold less_than_comparable_TT.operator_gt,
    less_than_comparable_TT.operator_le, less_than_comparable_TT.operator_ge,
    less_than_comparable_TU.operator_gt_r, less_than_comparable_TU.operator_le,
    less_than_comparable_TU.operator_ge_r, less_than_comparable_TU.operator_ge,
    less_than_comparable_TU.operator_lt_r, less_than_comparable_TU.operator_le_r.
  split; [|split].
  - intros x y H. rewrite (Hasym _ _ H), H. repeat split.
  - intros x y H. rewrite (Hexcl _ _ H), H. repeat split.
  - intros x y H.
    assert (Hlt : lt2 y x = false).
    { destruct (lt2 y x) eqn:E; [|reflexivity].
      apply Hexcl in E. congruence. }
    rewrite Hlt, H. repeat split.
Qed.

Lemma Zltb_asymmetric : asymmetric Z.ltb.
Proof.
  intros a b H. apply Z.ltb_lt in H. apply Z.ltb_ge. lia.
Defined.

Lemma Z_nat_exclusive : exclusive Z_lt_nat Z_gt_nat.
Proof.
  intros a b H. unfold Z_lt_nat, Z_gt_nat in *.
  apply Z.ltb_lt in H. apply Z.ltb_ge. lia.
Defined.

Lemma ordering_consistent_witness :
  asymmetric Z.ltb /\ exclusive Z_lt_nat Z_gt_nat /\
  Z.ltb 1 2 = true /\
  less_than_comparable_TT.operator_le Z.ltb 1%Z 2%Z = true /\
  less_than_comparable_TU.operator_le Z_gt_nat 1%Z 2%nat = true /\
  less_than_comparable_TU.operator_le_r Z_lt_nat 1%nat 2%Z = true.
Proof.
  pose proof (ordering_consistent Zltb_asymmetric Z_nat_exclusive)
    as (H1 & H2 & H3).
  split; [exact Zltb_asymmetric|].
  split; [exact Z_nat_exclusive|].
  split; [reflexivity|].
  split; [apply (H1 1%Z 2%Z); reflexivity|].
  split; [apply (H2 1%Z 2%nat); reflexivity|].
  apply (H3 1%nat 2%Z); reflexivity.
Defined.

(* ================================================================== *)
(** * The equivalence generator *)
(* ================================================================== *)

(** C4: the derived [==] of [equivalent] is the double negative test, with
    [x > y] in the two-type unit and [y < x] in the same-type unit; when the
    primitive [<] is a strict weak order the same-type [==] is reflexive,
    symmetric and transitive. *)
Theorem equivalent_is_equivalence
    (T U : Type) (lt : T -> T -> bool) (lt2 gt2 : T -> U -> bool)
    (Hswo : strict_weak_order lt) :
  (forall (x : T) (y : U),
      equivalent_TU.operator_eq lt2 gt2 x y = true <->
      lt2 x y = false /\ gt2 x y = false) /\
  (forall x y : T,
      equivalent_TT.operator_eq lt x y = true <->
      lt x y = false /\ lt y x = false) /\
  (forall x : T, equivalent_TT.operator_eq lt x x = true) /\
  (forall x y : T,
      equivalent_TT.operator_eq lt x y = true ->
      equivalent_TT.operator_eq lt y x = true) /\
  (forall x y z : T,
      equivalent_TT.operator_eq lt x y = true ->
      equivalent_TT.operator_eq lt y z = true ->
      equivalent_TT.operator_eq lt x z = true).
Proof.
  assert (Htest : forall a b : bool,
             negb a && negb b = true <-> a = false /\ b = false).
  { intros [|] [|]; cbn; intuition congruence. }
  unfold equivalent_TU.operator_eq, equivalent_TT.operator_eq.
  split; [|split; [|split; [|split]]].
  - intros x y. apply Htest.
  - intros x y. apply Htest.
  - intro x. rewrite (swo_irrefl Hswo x). reflexivity.
  - intros x y H. apply Htest in H. apply Htest. tauto.
  - intros x y z Hxy Hyz.
    apply Htest in Hxy. apply Htest in Hyz. apply Htest.
    destruct Hxy as [H1 H2], Hyz as [H3 H4].
    exact (swo_incomparable Hswo x y z H1 H2 H3 H4).
Qed.

Lemma by_key_strict_weak_order : strict_weak_order by_key.
Proof.
  unfold by_key. constructor.
  - intro x. apply Z.ltb_irrefl.
  - intros x y z H1 H2. apply Z.ltb_lt in H1, H2. apply Z.ltb_lt. lia.
  - intros x y z H1 H2 H3 H4.
    apply Z.ltb_ge in H1, H2, H3, H4. split; apply Z.ltb_ge; lia.
Defined.

Lemma equivalent_is_equivalence_witness :
  strict_weak_order by_key /\
  equivalent_TT.operator_eq by_key (1, 5)%Z (1, 7)%Z = true /\
  equivalent_TT.operator_eq by_key (1, 7)%Z (1, 5)%Z = true.
Proof.
  pose proof (equivalent_is_equivalence key_lt key_gt
                by_key_strict_weak_order) as (_ & _ & _ & Hsym & _).
  split; [exact by_key_strict_weak_order|].
  split; [reflexivity|].
  apply Hsym. reflexivity.
Defined.

(** C10: the same-type derived [==] of [equivalent] is symmetric for every
    primitive [<]; reflexivity and transitivity are not unconditional: each
    fails for some primitive [<]. *)
Theorem equivalent_TT_symmetric :
  (forall (T : Type) (lt : T -> T -> bool) (x y : T),
      equivalent_TT.operator_eq lt x y = equivalent_TT.operator_eq lt y x) /\
  (exists (T : Type) (lt : T -> T -> bool) (x : T),
      equivalent_TT.operator_eq lt x x = false) /\
  (exists (T : Type) (lt : T -> T -> bool) (x y z : T),
      equivalent_TT.operator_eq lt x y = true /\
      equivalent_TT.operator_eq lt y z = true /\
      equivalent_TT.operator_eq lt x z = false).
Proof.
  split; [|split].
  - intros T lt x y. unfold equivalent_TT.operator_eq. apply andb_comm.
  - exists bool, (fun _ _ => true), true. reflexivity.
  - (* 0 < 2 only: 0 ~ 1 and 1 ~ 2 but not 0 ~ 2 *)
    exists nat, (fun a b => Nat.eqb a 0 && Nat.eqb b 2), 0, 1, 2.
    repeat split.
Qed.

(* ================================================================== *)
(** * The binary operator generators *)
(* ================================================================== *)

(** The derived binary operator returns what the compound assignment makes
    of a copy of the left operand. *)
Lemma operator_op_assign (T U : Type) (op_assign : T -> U -> T) x y :
  binary_operator.operator_op op_assign x y = op_assign x y.
Proof. reflexivity. Qed.

Lemma operator_op_swapped_assign (T U : Type) (op_assign : T -> U -> T) x y :
  binary_operator.operator_op_swapped op_assign x y = op_assign y x.
Proof. reflexivity. Qed.

Section CommutativeGenerators.
Variable den : ty -> Type.
Variable P : run.primitives den.

Abbreviation obj := (run.VObj den).

(** C3: for two distinct types a commutative generator defines exactly
    [T operator op(T, U)] and [T operator op(U, T)]; run on [x : T] and
    [y : U] in either order, each returns, as a [T], the result of
    [op=] applied with [y] to a copy of [x], leaving [x] and [y] as they
    were.  For a single type it defines the forward form only. *)
Theorem commutative_generator_shape
    (u : unit_name) (op : binop) (T U : ty)
    (op_assign : den T -> den U -> den T) (x : den T) (y : den U)
    (fuel : nat)
    (Hu : In (u, op) commutative_generators)
    (HTU : T <> U)
    (Hassign : run.p_assign P op T U = Some op_assign)
    (Hfuel : 6 <= fuel) :
  map (fun d => (d_ret d, sig_of d)) (own_ops u<<T, U>>) =
    [ (T, (Bin op, [Some T; Some U])); (T, (Bin op, [Some U; Some T])) ] /\
  run.call P (own_ops u<<T, U>>) fuel (Bin op) [obj T x; obj U y] =
    Some (obj T (binary_operator.operator_op op_assign x y), obj T x) /\
  run.call P (own_ops u<<T, U>>) fuel (Bin op) [obj U y; obj T x] =
    Some (obj T (binary_operator.operator_op_swapped op_assign y x),
          obj U y) /\
  binary_operator.operator_op_swapped op_assign y x =
    binary_operator.operator_op op_assign x y /\
  map (fun d => (d_ret d, sig_of d)) (own_ops u<<T, T>>) =
    [ (T, (Bin op, [Some T; Some T])) ].
Proof.
  apply ty_eqb_neq in HTU.
  cbn in Hu.
  repeat (destruct Hu as [Hu|Hu]; [injection Hu as <- <-|]);
    try contradiction;
    (split; [unfold_header; rewrite HTU; reflexivity|]);
    (split; [least_fuel Hfuel; run_bodies; reflexivity|]);
    (split; [least_fuel Hfuel; run_bodies; reflexivity|]);
    (split; [reflexivity|]);
    unfold_header; rewrite ty_eqb_refl; reflexivity.
Qed.
End CommutativeGenerators.

Lemma commutative_generator_shape_witness :
  run.call Zprims (own_ops addable<<"T"%string, "U"%string>>) 6 (Bin Plus)
    [run.VObj Zden "U"%string 4%Z; run.VObj Zden "T"%string 3%Z] =
  Some (run.VObj Zden "T"%string 7%Z, run.VObj Zden "U"%string 4%Z).
Proof.
  assert (Hu : In (addable, Plus) commutative_generators)
    by (simpl; auto).
  assert (HTU : "T"%string <> "U"%string) by discriminate.
  assert (Hassign :
            run.p_assign Zprims Plus "T"%string "U"%string = Some Z.add)
    by reflexivity.
  assert (Hfuel : 6 <= 6) by lia.
  destruct (commutative_generator_shape Zprims 3%Z 4%Z Hu HTU Hassign Hfuel)
    as (_ & _ & H & _).
  exact H.
Defined.

(** C5: over a type whose compound assignments satisfy the round-trip
    identities, the derived binary operators satisfy [(a + b) - b == a] and,
    for [b] other than zero, [(a * b) / b == a]. *)
Theorem round_trip
    (T : Type) (add_assign sub_assign mul_assign div_assign : T -> T -> T)
    (zero : T)
    (Hadd : forall a b, sub_assign (add_assign a b) b = a)
    (Hmul : forall a b, b <> zero -> div_assign (mul_assign a b) b = a) :
  (forall a b,
      binary_operator.operator_op sub_assign
        (binary_operator.operator_op add_assign a b) b = a) /\
  (forall a b,
      b <> zero ->
      binary_operator.operator_op div_assign
        (binary_operator.operator_op mul_assign a b) b = a).
Proof.
  split.
  - intros a b. rewrite !operator_op_assign. apply Hadd.
  - intros a b Hb. rewrite !operator_op_assign. apply Hmul. exact Hb.
Qed.

(** Exact integers, with the truncating division of C++. *)
Lemma round_trip_witness :
  binary_operator.operator_op Z.sub
    (binary_operator.operator_op Z.add 7%Z 3%Z) 3%Z = 7%Z /\
  binary_operator.operator_op Z.quot
    (binary_operator.operator_op Z.mul (-7)%Z 3%Z) 3%Z = (-7)%Z.
Proof.
  assert (Hadd : forall a b : Z, (a + b - b = a)%Z) by (intros; lia).
  assert (Hmul : forall a b : Z, b <> 0%Z -> (Z.quot (a * b) b = a)%Z)
    by (intros a b Hb; apply Z.quot_mul; exact Hb).
  destruct (round_trip Z.add Z.sub Z.mul Z.quot Hadd Hmul) as [H1 H2].
  split.
  - apply H1.
  - apply H2. discriminate.
Defined.

(* ================================================================== *)
(** * The step and access generators *)
(* ================================================================== *)

(** C6: [x++] returns the value [x] had before the call and leaves in [x]
    the result of the prefix increment of that value; the prefix increment
    has run once and the prefix decrement not at all.  Symmetrically for
    [x--]. *)
Theorem postfix_step (T : Type) (pre_inc pre_dec : T -> T) (x : step.cell T) :
  step.operator_post_inc pre_inc x =
    (step.object x,
     {| step.object := pre_inc (step.object x);
        step.inc_calls := S (step.inc_calls x);
        step.dec_calls := step.dec_calls x |}) /\
  step.operator_post_dec pre_dec x =
    (step.object x,
     {| step.object := pre_dec (step.object x);
        step.inc_calls := step.inc_calls x;
        step.dec_calls := S (step.dec_calls x) |}).
Proof. split; reflexivity. Qed.

(** [auto tmp = x++;] on a counter holding 41. *)
Example post_inc_41 :
  step.operator_post_inc Z.succ
    {| step.object := 41%Z; step.inc_calls := 0; step.dec_calls := 0 |} =
  (41%Z, {| step.object := 42%Z; step.inc_calls := 1; step.dec_calls := 0 |}).
Proof. reflexivity. Qed.

(** C7: with [+] the addition of the self type and the distance type, the
    derived [self[n]] is [*(self + n)], for every [n]; with the [+] that
    [addable<T, D>] derives from [+=], as in [random_access_iteratable], it
    is the dereference of a copy of [self] advanced by [n]. *)
Theorem subscript_is_deref_plus
    (T D R : Type) (plus add_assign : T -> D -> T) (deref : T -> R)
    (self : T) (n : D) :
  accessor.operator_subscript plus deref self n = deref (plus self n) /\
  accessor.operator_subscript
    (binary_operator.operator_op add_assign) deref self n =
  deref (binary_operator.operator_op add_assign self n) /\
  accessor.operator_subscript
    (binary_operator.operator_op add_assign) deref self n =
  deref (add_assign self n).
Proof. repeat split. Qed.

(** Indexing an iterator into an array. *)
Example array_subscript :
  accessor.operator_subscript
    (binary_operator.operator_op array_advance) array_deref
    ([10; 20; 30; 40]%Z, 1) 2 = Some 40%Z.
Proof. reflexivity. Qed.

(* ================================================================== *)
(** * The bundles *)
(* ================================================================== *)

(** C8: [random_access_iteratable] derives from [less_than_comparable] and
    not from [totally_ordered]; a single inheritance path leads from it to
    [equality_comparable], and the composed type gets one derived [!=] for
    the one [==] it supplies.  A type that derives from both
    [totally_ordered] and [bidirectional_iteratable] reaches
    [equality_comparable<T>] along two paths; the class is instantiated
    once, and there is again one derived [!=] and one supplied [==].
    Whatever the bundles composed, no class is instantiated twice. *)
Theorem diamond_collapse (T P D R : ty) :
  let rai := random_access_iteratable<<T, P, D, R>> in
  let both := [ totally_ordered<<T, T>>; bidirectional_iteratable<<T, P>> ] in
  let eq_T := (Cmp Equal, [Some T; Some T]) in
  let ne_T := (Cmp NotEqual, [Some T; Some T]) in
  bases rai =
    [ bidirectional_iteratable<<T, P>>; less_than_comparable<<T, T>>;
      additive<<T, D>>; subscriptable<<T, D, R>> ] /\
  filter (is_unit totally_ordered) (lineage rai) = [] /\
  filter (is_unit equality_comparable) (lineage rai) =
    [ equality_comparable<<T, T>> ] /\
  count_defs ne_T (derived_ops [rai]) = 1 /\
  count_defs eq_T (derived_ops [rai]) = 0 /\
  In eq_T (required (derived_ops [rai])) /\
  filter (is_unit equality_comparable) (flat_map lineage both) =
    [ equality_comparable<<T, T>>; equality_comparable<<T, T>> ] /\
  filter (is_unit equality_comparable) (instantiations both) =
    [ equality_comparable<<T, T>> ] /\
  count_defs ne_T (derived_ops both) = 1 /\
  count_defs eq_T (derived_ops both) = 0 /\
  In eq_T (required (derived_ops both)) /\
  (forall roots : list inst, NoDup (instantiations roots)).
Proof.
  cbv zeta. unfold derived_ops.
  rewrite random_access_instantiations, ordered_bidirectional_instantiations,
    ordered_bidirectional_lineage, random_access_lineage.
  split; [unfold_header; reflexivity|].
  split; [reflexivity|]. split; [reflexivity|].
  destruct (ty_eqb T D) eqn:E; [apply String.eqb_eq in E; subst D|];
    list_ops;
    (split; [unfold count_defs, sig_eqb; cbn; decide_types; reflexivity|]);
    (split; [reflexivity|]);
    (split; [apply required_intro; [cbn; tauto | reflexivity]|]);
    (split; [reflexivity|]); (split; [reflexivity|]);
    (split; [unfold count_defs, sig_eqb; cbn; decide_types; reflexivity|]);
    (split; [reflexivity|]);
    (split; [apply required_intro; [cbn; tauto | reflexivity]|]);
    intro roots; apply dedup_NoDup.
Qed.

(** C9: [euclidian_ring_operators<T, U>] and [euclidean_ring_operators<T, U>]
    have the same bases and members for all [T] and [U], equal or not, and
    give a composing type the same derived operators with the same bodies. *)
Theorem euclidian_euclidean_same (T U : ty) :
  instantiate euclidian_ring_operators<<T, U>> =
    instantiate euclidean_ring_operators<<T, U>> /\
  flat_map lineage (bases euclidian_ring_operators<<T, U>>) =
    flat_map lineage (bases euclidean_ring_operators<<T, U>>) /\
  derived_ops [ euclidian_ring_operators<<T, U>> ] =
    derived_ops [ euclidean_ring_operators<<T, U>> ].
Proof.
  split; [reflexivity|]. split; [reflexivity|].
  destruct (ty_eqb T U) eqn:E; [apply String.eqb_eq in E; subst U|];
    compute_derived_ops; reflexivity.
Qed.

(* ================================================================== *)
(** * Further properties of the composition layer *)
(* ================================================================== *)

Lemma distinctb_NoDup {A} (eqb : A -> A -> bool) (l : list A) :
  (forall a, eqb a a = true) ->
  distinctb eqb l = true -> NoDup l.
Proof.
  intros Hrefl. induction l as [|a l IH]; cbn; intro H; [constructor|].
  apply andb_prop in H. destruct H as [H1 H2].
  constructor; [|apply IH; exact H2].
  intro Hin. apply negb_true_iff in H1.
  assert (Hex : existsb (eqb a) l = true).
  { apply existsb_exists. exists a. split; [exact Hin | apply Hrefl]. }
  congruence.
Qed.

Lemma unit_name_beq_refl (u : unit_name) : unit_name_beq u u = true.
Proof. apply internal_unit_name_dec_lb. reflexivity. Qed.

(** Decides the specialisation tested in the goal, both ways. *)
Ltac split_specialisation :=
  match goal with
  | |- context [ty_eqb ?a ?b] =>
      let E := fresh "E" in
      destruct (ty_eqb a b) eqn:E; [apply String.eqb_eq in E; subst|]
  end.

Ltac expand_lineage_all :=
  repeat (rewrite lineage_unfold; unfold_bases; decide_types;
          repeat (split_specialisation; decide_types);
          cbn [flat_map app s_bases s_ops fst snd]).

Lemma lineage_units_NoDup (i : inst) :
  NoDup (map i_unit (lineage i)).
Proof.
  destruct i as [u args].
  destruct u; split_args args; expand_lineage_all;
    (apply (distinctb_NoDup unit_name_beq); [exact unit_name_beq_refl|]);
    reflexivity.
Qed.

Lemma sig_eqb_refl (s : signature) : sig_eqb s s = true.
Proof.
  destruct s as [o l]. unfold sig_eqb. cbn [fst snd].
  rewrite (internal_opsym_dec_lb (x:=o) (y:=o) eq_refl).
  apply (list_eqb_refl (option_eqb ty_eqb)).
  intros [t|]; cbn; [apply ty_eqb_refl | reflexivity].
Qed.

(** Where no template occurs twice, every class of the closure is
    instantiated for itself. *)
Lemma dedup_distinct_units (l : list inst) :
  NoDup (map i_unit l) -> dedup l = l.
Proof.
  induction l as [|i l IH]; cbn; intro H; [reflexivity|].
  inversion H as [|u us Hnotin Hrest]; subst.
  destruct (existsb (inst_eqb i) l) eqn:E.
  - exfalso. apply Hnotin.
    apply existsb_exists in E. destruct E as (j & Hj & Hij).
    apply inst_eqb_true_iff in Hij. subst j.
    apply in_map. exact Hj.
  - rewrite (IH Hrest). reflexivity.
Qed.

Lemma derived_ops_single (i : inst) :
  derived_ops [i] = flat_map own_ops (lineage i).
Proof.
  unfold derived_ops, instantiations. cbn [flat_map]. rewrite app_nil_r.
  rewrite dedup_distinct_units; [reflexivity|].
  apply lineage_units_NoDup.
Qed.

(** X1: no class of the header inherits from the same template twice:
    the templates in the inheritance closure of any instantiation are
    pairwise distinct, so the closure has no repeated base class and each
    of its classes is instantiated for itself. *)
Theorem lineage_templates_distinct (i : inst) :
  NoDup (map i_unit (lineage i)) /\
  NoDup (lineage i) /\
  instantiations [i] = lineage i.
Proof.
  pose proof (lineage_units_NoDup i) as H.
  split; [exact H|]. split.
  - apply (NoDup_map_inv i_unit). exact H.
  - unfold instantiations. cbn [flat_map]. rewrite app_nil_r.
    apply dedup_distinct_units. exact H.
Qed.

(** X2: whatever class of the header a type derives from, and whether its
    two type arguments are equal or not, no operator is defined twice: the
    signatures of the derived operators are pairwise distinct. *)
Theorem derived_operators_distinct (i : inst) :
  NoDup (signatures (derived_ops [i])).
Proof.
  rewrite derived_ops_single. unfold signatures.
  destruct i as [u args].
  destruct u; split_args args; expand_lineage_all; list_ops;
    (apply (distinctb_NoDup sig_eqb); [exact sig_eqb_refl|]);
    unfold sig_eqb; cbn; decide_types; reflexivity.
Qed.

(** X3: in the same-type specialisation of every bundle no reversed unit
    [r##name] is among the bases, however deep; composed with the forward
    unit on one type, a reversed unit would define the same operator a
    second time. *)
Theorem same_type_bundles_skip_reversed (u : unit_name) (T : ty) :
  filter (fun j => is_reversed (i_unit j))
    (flat_map lineage (bases u<<T, T>>)) = [] /\
  Forall (fun g : unit_name * unit_name * binop =>
            let '(name, rname, op) := g in
            count_defs (Bin op, [Some T; Some T])
              (derived_ops [ name<<T, T>>; rname<<T, T>> ]) = 2)
    non_commutative_generators.
Proof.
  split.
  - destruct u; unfold_bases; decide_types;
      cbn [flat_map app s_bases s_ops fst snd];
      expand_lineage_all; reflexivity.
  - unfold non_commutative_generators.
    repeat constructor; compute_derived_ops;
      unfold count_defs, sig_eqb; cbn; decide_types; reflexivity.
Qed.

(** X4: for two distinct types, [additive], [multiplicative] and the full
    [operators] set derive no [U - T], [U / T] or [U % T]: [additive<T, U>]
    is [T + U], [U + T], [T - U] and [multiplicative<T, U>] is [T * U],
    [U * T], [T / U].  The reversed operators come with [ring_operators]
    ([U - T]), [field_operators] ([U / T]) and the Euclidean bundles
    ([U % T]) only. *)
Theorem reversed_operators_by_bundle (T U : ty) (HTU : T <> U) :
  let rev op := (Bin op, [Some U; Some T]) in
  signatures (derived_ops [ additive<<T, U>> ]) =
    [ (Bin Plus, [Some T; Some U]); (Bin Plus, [Some U; Some T]);
      (Bin Minus, [Some T; Some U]) ] /\
  signatures (derived_ops [ multiplicative<<T, U>> ]) =
    [ (Bin Times, [Some T; Some U]); (Bin Times, [Some U; Some T]);
      (Bin Divide, [Some T; Some U]) ] /\
  (forall op, In op [Minus; Divide; Modulo] ->
     defines (derived_ops [ operators<<T, U>> ]) (rev op) = false) /\
  defines (derived_ops [ ring_operators<<T, U>> ]) (rev Minus) = true /\
  defines (derived_ops [ ring_operators<<T, U>> ]) (rev Divide) = false /\
  defines (derived_ops [ field_operators<<T, U>> ]) (rev Divide) = true /\
  defines (derived_ops [ field_operators<<T, U>> ]) (rev Modulo) = false /\
  defines (derived_ops [ euclidean_ring_operators<<T, U>> ]) (rev Modulo)
    = true.
Proof.
  apply ty_eqb_neq in HTU. cbv zeta. unfold signatures, defines, sig_eqb.
  repeat split;
    try (intros op Hop; cbn in Hop;
         repeat (destruct Hop as [Hop|Hop]; [subst op|]);
         try contradiction);
    compute_derived_ops; cbn; decide_types; reflexivity.
Qed.

Lemma reversed_operators_by_bundle_witness :
  defines (derived_ops [ additive<<"T"%string, "U"%string>> ])
    (Bin Minus, [Some "U"%string; Some "T"%string]) = false /\
  defines (derived_ops [ ring_operators<<"T"%string, "U"%string>> ])
    (Bin Minus, [Some "U"%string; Some "T"%string]) = true.
Proof.
  assert (HTU : "T"%string <> "U"%string) by discriminate.
  destruct (reversed_operators_by_bundle HTU)
    as (_ & _ & _ & Hring & _).
  split; [reflexivity | exact Hring].
Defined.

(** X5: the shift generators have the forward form only, for two types as
    for one: [shiftable<T, U>] derives [T << U] and [T >> U] and nothing
    with the [U] operand first, and needs of [T] its copy constructor and
    [T <<= U], [T >>= U]. *)
Theorem shiftable_forward_only (T U : ty) :
  signatures (derived_ops [ shiftable<<T, U>> ]) =
    [ (Bin ShiftL, [Some T; Some U]); (Bin ShiftR, [Some T; Some U]) ] /\
  required (derived_ops [ shiftable<<T, U>> ]) =
    [ (Assign ShiftL, [Some T; Some U]); (Construct, [Some T; Some T]);
      (Assign ShiftR, [Some T; Some U]) ].
Proof.
  unfold signatures, required, defines, sig_eqb.
  destruct (ty_eqb T U) eqn:E; [apply String.eqb_eq in E; subst U|];
    split; compute_derived_ops; cbn; decide_types; reflexivity.
Qed.

(** X6: what the binary generators ask of the composing type.  A forward
    generator, the [U]-first form of the commutative ones included, needs
    the copy constructor of [T] and the compound assignment [T op= U] and
    nothing else; a reversed generator needs instead the construction of
    a [T] from a [U] and the same-type assignment [T op= T]. *)
Theorem binary_generator_requirements (T U : ty) :
  Forall (fun g : unit_name * binop =>
            required (own_ops (fst g)<<T, U>>) =
            [ (Construct, [Some T; Some T]);
              (Assign (snd g), [Some T; Some U]) ])
    forward_generators /\
  Forall (fun g : unit_name * unit_name * binop =>
            let '(_, rname, op) := g in
            required (own_ops rname<<T, U>>) =
            [ (Construct, [Some T; Some U]);
              (Assign op, [Some T; Some T]) ])
    non_commutative_generators.
Proof.
  unfold forward_generators, non_commutative_generators, required, defines,
    sig_eqb.
  destruct (ty_eqb T U) eqn:E; [apply String.eqb_eq in E; subst U|];
    split; repeat constructor; cbn [fst snd];
    unfold_header; decide_types; cbn; decide_types; reflexivity.
Qed.

(** ** Computing the required operators without case explosion *)

Lemma filter_step {A} (f : A -> bool) (x : A) (l : list A) :
  filter f (x :: l) = if f x then x :: filter f l else filter f l.
Proof. reflexivity. Qed.

Lemma dedup_sig_step (s : signature) (l : list signature) :
  dedup_sig (s :: l) =
  if existsb (sig_eqb s) l then dedup_sig l else s :: dedup_sig l.
Proof. reflexivity. Qed.

Lemma existsb_map {A B} (f : A -> B) (p : B -> bool) (l : list A) :
  existsb p (map f l) = existsb (fun a => p (f a)) l.
Proof.
  induction l as [|a l IH]; cbn; [reflexivity|]. rewrite IH. reflexivity.
Qed.

(** Whether an operator is defined depends on the signatures only. *)
Lemma defines_signatures (ops : list opdef) (s : signature) :
  defines ops s = existsb (fun t => sig_eqb t s) (signatures ops).
Proof. unfold defines, signatures. rewrite existsb_map. reflexivity. Qed.

Lemma required_signatures (ops : list opdef) :
  required ops =
  dedup_sig
    (filter (fun s => negb (existsb (fun t => sig_eqb t s) (signatures ops)))
       (flat_map calls ops)).
Proof.
  unfold required. f_equal. apply filter_ext. intro s.
  rewrite defines_signatures. reflexivity.
Qed.

(** Decides the tests on signatures in the goal, leaving [filter] and
    [dedup_sig] folded. *)
Ltac decide_signatures :=
  repeat (progress
    (cbn [existsb sig_eqb opsym_beq cmpop_beq binop_beq list_eqb
          option_eqb fst snd andb orb negb];
     decide_types)).

(** The signatures and the calls of an explicit list of operators hold no
    test on type names and are computed at once. *)
Ltac list_signatures :=
  repeat match goal with
    | |- context [signatures ?ops] =>
        let v := eval cbv in (signatures ops) in
        change (signatures ops) with v
    | |- context [flat_map calls ?ops] =>
        let v := eval cbv in (flat_map calls ops) in
        change (flat_map calls ops) with v
    end.

(** One element after the other: the test on an element is decided before
    the rest of the list is looked at. *)
Ltac compute_required :=
  rewrite required_signatures; list_signatures;
  repeat (rewrite filter_step; decide_signatures);
  cbn [filter];
  repeat (rewrite dedup_sig_step; decide_signatures);
  cbn [dedup_sig].

Ltac compute_defines :=
  rewrite defines_signatures; list_signatures; decide_signatures.

(** X7: a type deriving from [operators<T>] supplies twelve operators and
    its copy constructor and obtains fourteen: it supplies [<], [==], the
    eight compound assignments and the two prefix steps, and obtains [>],
    [<=], [>=], [!=], the eight binary operators and the two postfix
    steps. *)
Theorem operators_TT_interface (T : ty) :
  let tt := [Some T; Some T] in
  signatures (derived_ops [ operators<<T, T>> ]) =
    [ (Cmp Greater, tt); (Cmp LessEq, tt); (Cmp GreaterEq, tt);
      (Cmp NotEqual, tt);
      (Bin Plus, tt); (Bin Minus, tt); (Bin Times, tt); (Bin Divide, tt);
      (Bin Modulo, tt);
      (Bin BitXor, tt); (Bin BitAnd, tt); (Bin BitOr, tt);
      (PostInc, [Some T; Some "int"%string]);
      (PostDec, [Some T; Some "int"%string]) ] /\
  required (derived_ops [ operators<<T, T>> ]) =
    [ (Cmp Less, tt); (Cmp Equal, tt);
      (Assign Plus, tt); (Assign Minus, tt); (Assign Times, tt);
      (Assign Divide, tt); (Assign Modulo, tt);
      (Assign BitXor, tt); (Assign BitAnd, tt); (Assign BitOr, tt);
      (PreInc, [Some T]); (Construct, tt); (PreDec, [Some T]) ].
Proof.
  cbv zeta. unfold signatures.
  split; compute_derived_ops; [reflexivity|].
  compute_required. reflexivity.
Qed.

(** X8: the operator surface of [random_access_iteratable<T, P, D, R>] for
    a distance type [D] other than [T].  The iterator supplies [==], [<],
    prefix [++] and [--], [*], [+= D], [-= D] and its copy constructor; it
    obtains [!=], [>], [<=], [>=], the postfix steps, [->], [it + n],
    [n + it], [it - n] and [it[n]].  The difference [it - it] of two
    iterators and [n - it] are not derived. *)
Theorem random_access_interface (T P D R : ty) (HTD : T <> D) :
  let rai := random_access_iteratable<<T, P, D, R>> in
  let tt := [Some T; Some T] in
  signatures (derived_ops [rai]) =
    [ (Cmp NotEqual, tt); (PostInc, [Some T; Some "int"%string]);
      (Arrow, [Some T]); (PostDec, [Some T; Some "int"%string]);
      (Cmp Greater, tt); (Cmp LessEq, tt); (Cmp GreaterEq, tt);
      (Bin Plus, [Some T; Some D]); (Bin Plus, [Some D; Some T]);
      (Bin Minus, [Some T; Some D]); (Subscript, [Some T; Some D]) ] /\
  map d_ret (derived_ops [rai]) =
    [ "bool"; T; P; T; "bool"; "bool"; "bool"; T; T; T; R ]%string /\
  required (derived_ops [rai]) =
    [ (Cmp Equal, tt); (PreInc, [Some T]); (Deref, [Some T]);
      (PreDec, [Some T]); (Cmp Less, tt);
      (Assign Plus, [Some T; Some D]); (Construct, tt);
      (Assign Minus, [Some T; Some D]); (Deref, [None]) ] /\
  defines (derived_ops [rai]) (Bin Minus, tt) = false /\
  defines (derived_ops [rai]) (Bin Minus, [Some D; Some T]) = false.
Proof.
  apply ty_eqb_neq in HTD. cbv zeta.
  unfold derived_ops.
  rewrite random_access_instantiations, random_access_lineage.
  list_ops. unfold signatures.
  split; [reflexivity|]. split; [reflexivity|].
  split; [compute_required; reflexivity|].
  split; compute_defines; reflexivity.
Qed.

Lemma random_access_interface_witness :
  defines
    (derived_ops
       [ random_access_iteratable<<"It", "Ptr", "Diff", "Ref">> ]%string)
    (Bin Minus, [Some "It"; Some "It"]%string) = false.
Proof.
  assert (HTD : "It"%string <> "Diff"%string) by discriminate.
  destruct (random_access_interface "Ptr"%string "Ref"%string HTD)
    as (_ & _ & _ & H & _).
  exact H.
Defined.

(** X9: how the arithmetic bundles build on each other.  [field_operators]
    is [ring_operators] with [/] added, the Euclidean bundle is
    [field_operators] with [%] added, [integer_arithmetic] is [arithmetic]
    with [%] added; the reversed [U / T] and [U % T] are added for two
    distinct types only, and [integer_arithmetic] adds no reversed form. *)
Theorem arithmetic_bundles_build_up (T U : ty) :
  let reversed r := if ty_eqb T U then [] else own_ops r<<T, U>> in
  derived_ops [ field_operators<<T, U>> ] =
    derived_ops [ ring_operators<<T, U>> ]
    ++ own_ops dividable<<T, U>> ++ reversed rdividable /\
  derived_ops [ euclidean_ring_operators<<T, U>> ] =
    derived_ops [ field_operators<<T, U>> ]
    ++ own_ops modable<<T, U>> ++ reversed rmodable /\
  derived_ops [ integer_arithmetic<<T, U>> ] =
    derived_ops [ arithmetic<<T, U>> ] ++ own_ops modable<<T, U>> /\
  derived_ops [ arithmetic<<T, U>> ] =
    derived_ops [ additive<<T, U>> ] ++ derived_ops [ multiplicative<<T, U>> ].
Proof.
  cbv zeta.
  destruct (ty_eqb T U) eqn:E; [apply String.eqb_eq in E; subst U|];
    repeat split; compute_derived_ops; unfold_header; decide_types;
    reflexivity.
Qed.

(** X10: the traversal bundles as sets of operators.  [output_iteratable]
    derives the postfix increment alone; [forward_iteratable] derives what
    [input_iteratable] derives, [!=], [x++] and [->]; and
    [bidirectional_iteratable] adds [x--] to these, needing the prefix
    [--] on top of [==], [++] and [*]. *)
Theorem traversal_bundles (T P : ty) :
  signatures (derived_ops [ output_iteratable<<T>> ]) =
    [ (PostInc, [Some T; Some "int"%string]) ] /\
  derived_ops [ forward_iteratable<<T, P>> ] =
    derived_ops [ input_iteratable<<T, P>> ] /\
  signatures (derived_ops [ input_iteratable<<T, P>> ]) =
    [ (Cmp NotEqual, [Some T; Some T]);
      (PostInc, [Some T; Some "int"%string]); (Arrow, [Some T]) ] /\
  derived_ops [ bidirectional_iteratable<<T, P>> ] =
    derived_ops [ forward_iteratable<<T, P>> ] ++ own_ops decrementable<<T>> /\
  required (derived_ops [ input_iteratable<<T, P>> ]) =
    [ (Cmp Equal, [Some T; Some T]); (Construct, [Some T; Some T]);
      (PreInc, [Some T]); (Deref, [Some T]) ] /\
  required (derived_ops [ bidirectional_iteratable<<T, P>> ]) =
    [ (Cmp Equal, [Some T; Some T]); (PreInc, [Some T]); (Deref, [Some T]);
      (Construct, [Some T; Some T]); (PreDec, [Some T]) ].
Proof.
  unfold signatures.
  repeat split; compute_derived_ops; unfold_header; decide_types;
    try reflexivity; compute_required; reflexivity.
Qed.

(* ================================================================== *)
(** * Further properties of the derived comparisons *)
(* ================================================================== *)

Section DenotationPartiallyOrdered.
Variable den : ty -> Type.
Variable P : run.primitives den.

Abbreviation obj := (run.VObj den).
Abbreviation boolean := (run.VBool den).

Lemma partially_ordered_TT_denotes
    (T : ty) (lt eq : den T -> den T -> bool) (x y : den T) (fuel : nat) :
  run.p_cmp P Less T T = Some lt ->
  run.p_cmp P Equal T T = Some eq ->
  7 <= fuel ->
  let ops := own_ops partially_ordered<<T, T>> in
  run.call P ops fuel (Cmp Greater) [obj T x; obj T y] =
    Some (boolean (partially_ordered_TT.operator_gt lt x y), obj T x) /\
  run.call P ops fuel (Cmp LessEq) [obj T x; obj T y] =
    Some (boolean (partially_ordered_TT.operator_le lt eq x y), obj T x) /\
  run.call P ops fuel (Cmp GreaterEq) [obj T x; obj T y] =
    Some (boolean (partially_ordered_TT.operator_ge lt eq x y), obj T x).
Proof.
  intros Hlt Heq Hfuel. cbv zeta.
  unfold partially_ordered_TT.operator_gt, partially_ordered_TT.operator_le,
    partially_ordered_TT.operator_ge.
  repeat split; least_fuel Hfuel; run_bodies;
    try reflexivity;
    match goal with
    | |- context [if ?b then _ else _] => destruct b
    | |- context [match ?b with true => _ | false => _ end] => destruct b
    end; cbn; try reflexivity; run_bodies; reflexivity.
Qed.

Lemma partially_ordered_TU_denotes
    (T U : ty) (lt gt eq : den T -> den U -> bool)
    (x : den T) (y : den U) (fuel : nat) :
  T <> U ->
  run.p_cmp P Less T U = Some lt ->
  run.p_cmp P Greater T U = Some gt ->
  run.p_cmp P Equal T U = Some eq ->
  7 <= fuel ->
  let ops := own_ops partially_ordered<<T, U>> in
  run.call P ops fuel (Cmp LessEq) [obj T x; obj U y] =
    Some (boolean (partially_ordered_TU.operator_le lt eq x y), obj T x) /\
  run.call P ops fuel (Cmp GreaterEq) [obj T x; obj U y] =
    Some (boolean (partially_ordered_TU.operator_ge gt eq x y), obj T x) /\
  run.call P ops fuel (Cmp Greater) [obj U y; obj T x] =
    Some (boolean (partially_ordered_TU.operator_gt_r lt y x), obj U y) /\
  run.call P ops fuel (Cmp Less) [obj U y; obj T x] =
    Some (boolean (partially_ordered_TU.operator_lt_r gt y x), obj U y) /\
  run.call P ops fuel (Cmp LessEq) [obj U y; obj T x] =
    Some (boolean (partially_ordered_TU.operator_le_r gt eq y x), obj U y) /\
  run.call P ops fuel (Cmp GreaterEq) [obj U y; obj T x] =
    Some (boolean (partially_ordered_TU.operator_ge_r lt eq y x), obj U y).
Proof.
  intros HTU Hlt Hgt Heq Hfuel. apply ty_eqb_neq in HTU. cbv zeta.
  unfold partially_ordered_TU.operator_le, partially_ordered_TU.operator_ge,
    partially_ordered_TU.operator_gt_r, partially_ordered_TU.operator_lt_r,
    partially_ordered_TU.operator_le_r, partially_ordered_TU.operator_ge_r.
  repeat split; least_fuel Hfuel; run_bodies;
    try reflexivity;
    match goal with
    | |- context [if ?b then _ else _] => destruct b
    | |- context [match ?b with true => _ | false => _ end] => destruct b
    end; cbn; try reflexivity; run_bodies; reflexivity.
Qed.
End DenotationPartiallyOrdered.

Ltac unfold_comparisons :=
  unfold less_than_comparable_TT.operator_gt,
    less_than_comparable_TT.operator_le, less_than_comparable_TT.operator_ge,
    less_than_comparable_TU.operator_gt_r, less_than_comparable_TU.operator_le,
    less_than_comparable_TU.operator_ge_r, less_than_comparable_TU.operator_ge,
    less_than_comparable_TU.operator_lt_r, less_than_comparable_TU.operator_le_r,
    equality_comparable_TT.operator_ne, equality_comparable_TU.operator_ne,
    equality_comparable_TU.operator_ne_r, equality_comparable_TU.operator_eq_r,
    partially_ordered_TT.operator_gt, partially_ordered_TT.operator_le,
    partially_ordered_TT.operator_ge, equivalent_TT.operator_eq.

(** X11: [totally_ordered<T>] over a trichotomous pair [<], [==]: the
    derived [x <= y] is [x < y] or [x == y], [x >= y] is [x > y] or
    [x == y], [x != y] is [x < y] or [x > y], and [x <= y] together with
    [x >= y] is [x == y]. *)
Theorem totally_ordered_TT_consistent
    (T : Type) (lt eq : T -> T -> bool) (Htri : trichotomous lt eq)
    (x y : T) :
  let gt := less_than_comparable_TT.operator_gt lt in
  let le := less_than_comparable_TT.operator_le lt in
  let ge := less_than_comparable_TT.operator_ge lt in
  let ne := equality_comparable_TT.operator_ne eq in
  le x y = lt x y || eq x y /\
  ge x y = gt x y || eq x y /\
  ne x y = lt x y || gt x y /\
  le x y && ge x y = eq x y.
Proof.
  cbv zeta. unfold_comparisons.
  destruct (Htri x y) as [(H1 & H2 & H3) | [(H1 & H2 & H3) | (H1 & H2 & H3)]];
    rewrite H1, H2, H3; repeat split.
Qed.

Lemma Z_trichotomous : trichotomous Z.ltb Z.eqb.
Proof.
  intros x y. unfold trichotomous.
  destruct (Z.ltb_spec x y), (Z.eqb_spec x y), (Z.ltb_spec y x);
    try lia; auto.
Defined.

Lemma totally_ordered_TT_consistent_witness :
  less_than_comparable_TT.operator_le Z.ltb 2%Z 2%Z =
  Z.ltb 2 2 || Z.eqb 2 2.
Proof.
  destruct (totally_ordered_TT_consistent Z_trichotomous 2%Z 2%Z)
    as (H & _).
  exact H.
Defined.

(** X12: [totally_ordered<T, U>] over a trichotomous triple [T < U],
    [T == U], [T > U]: every derived comparison, with the [T] or the [U]
    operand first, is the disjunction of primitives that its name says. *)
Theorem totally_ordered_TU_consistent
    (T U : Type) (lt gt eq : T -> U -> bool)
    (Htri : trichotomous2 lt gt eq) (x : T) (y : U) :
  less_than_comparable_TU.operator_le gt x y = lt x y || eq x y /\
  less_than_comparable_TU.operator_ge lt x y = gt x y || eq x y /\
  equality_comparable_TU.operator_ne eq x y = lt x y || gt x y /\
  less_than_comparable_TU.operator_lt_r gt y x = gt x y /\
  less_than_comparable_TU.operator_gt_r lt y x = lt x y /\
  less_than_comparable_TU.operator_le_r lt y x = gt x y || eq x y /\
  less_than_comparable_TU.operator_ge_r gt y x = lt x y || eq x y /\
  equality_comparable_TU.operator_eq_r eq y x = eq x y /\
  equality_comparable_TU.operator_ne_r eq y x = lt x y || gt x y.
Proof.
  unfold_comparisons.
  destruct (Htri x y) as [(H1 & H2 & H3) | [(H1 & H2 & H3) | (H1 & H2 & H3)]];
    rewrite H1, H2, H3; repeat split.
Qed.

Lemma Z_nat_trichotomous : trichotomous2 Z_lt_nat Z_gt_nat Z_eq_nat.
Proof.
  intros x y. unfold Z_lt_nat, Z_gt_nat, Z_eq_nat.
  destruct (Z.ltb_spec x (Z.of_nat y)), (Z.eqb_spec x (Z.of_nat y)),
    (Z.ltb_spec (Z.of_nat y) x); try lia; auto.
Defined.

Lemma totally_ordered_TU_consistent_witness :
  less_than_comparable_TU.operator_le_r Z_lt_nat 3%nat 5%Z =
  Z_gt_nat 5%Z 3%nat || Z_eq_nat 5%Z 3%nat.
Proof.
  destruct (totally_ordered_TU_consistent Z_nat_trichotomous 5%Z 3%nat)
    as (_ & _ & _ & _ & _ & H & _).
  exact H.
Defined.

(** X13: on a trichotomous pair [<], [==] the units [partially_ordered<T>]
    and [less_than_comparable<T>] derive the same [>], [<=] and [>=]. *)
Theorem partially_ordered_agrees_on_total_orders
    (T : Type) (lt eq : T -> T -> bool) (Htri : trichotomous lt eq)
    (x y : T) :
  partially_ordered_TT.operator_gt lt x y =
    less_than_comparable_TT.operator_gt lt x y /\
  partially_ordered_TT.operator_le lt eq x y =
    less_than_comparable_TT.operator_le lt x y /\
  partially_ordered_TT.operator_ge lt eq x y =
    less_than_comparable_TT.operator_ge lt x y.
Proof.
  unfold_comparisons.
  destruct (Htri x y) as [(H1 & H2 & H3) | [(H1 & H2 & H3) | (H1 & H2 & H3)]];
    rewrite H1, H2, H3; repeat split.
Qed.

Lemma partially_ordered_agrees_on_total_orders_witness :
  partially_ordered_TT.operator_le Z.ltb Z.eqb 3%Z 2%Z =
  less_than_comparable_TT.operator_le Z.ltb 3%Z 2%Z.
Proof.
  destruct (partially_ordered_agrees_on_total_orders Z_trichotomous 3%Z 2%Z)
    as (_ & H & _).
  exact H.
Defined.

(** X14: on incomparable values the two units part: [less_than_comparable]
    reports both [x <= y] and [x >= y], [partially_ordered] reports
    neither. *)
Theorem partially_ordered_differs_on_incomparable
    (T : Type) (lt eq : T -> T -> bool) (x y : T)
    (Hinc : incomparable lt eq x y) :
  less_than_comparable_TT.operator_le lt x y = true /\
  less_than_comparable_TT.operator_ge lt x y = true /\
  partially_ordered_TT.operator_le lt eq x y = false /\
  partially_ordered_TT.operator_ge lt eq x y = false.
Proof.
  destruct Hinc as (H1 & H2 & H3). unfold_comparisons.
  rewrite H1, H2, H3. repeat split.
Qed.

Lemma partially_ordered_differs_on_incomparable_witness :
  less_than_comparable_TT.operator_le pair_lt (1, 2)%Z (2, 1)%Z = true /\
  partially_ordered_TT.operator_le pair_lt pair_eq (1, 2)%Z (2, 1)%Z = false.
Proof.
  assert (Hinc : incomparable pair_lt pair_eq (1, 2)%Z (2, 1)%Z)
    by (repeat split).
  destruct (partially_ordered_differs_on_incomparable Hinc)
    as (H1 & _ & H3 & _).
  split; [exact H1 | exact H3].
Defined.

(** X15: over a strict partial order [<] and an [==] that decides equality,
    the [<=] derived by [partially_ordered<T>] is a partial order:
    reflexive, antisymmetric and transitive; and [x >= y] is [y <= x]. *)
Theorem partially_ordered_is_partial_order
    (T : Type) (lt eq : T -> T -> bool)
    (Hlt : strict_partial_order lt) (Heq : decides_equality eq) :
  let le := partially_ordered_TT.operator_le lt eq in
  let ge := partially_ordered_TT.operator_ge lt eq in
  (forall x, le x x = true) /\
  (forall x y, le x y = true -> le y x = true -> x = y) /\
  (forall x y z, le x y = true -> le y z = true -> le x z = true) /\
  (forall x y, ge x y = le y x).
Proof.
  cbv zeta. unfold_comparisons.
  assert (Hrefl : forall x, eq x x = true) by (intro x; apply Heq; reflexivity).
  repeat split.
  - intro x. rewrite Hrefl. apply orb_true_r.
  - intros x y Hxy Hyx.
    apply orb_true_iff in Hxy. apply orb_true_iff in Hyx.
    destruct Hxy as [Hxy|Hxy]; [|apply Heq; exact Hxy].
    destruct Hyx as [Hyx|Hyx]; [|symmetry; apply Heq; exact Hyx].
    pose proof (spo_trans Hlt x y x Hxy Hyx) as Hxx.
    rewrite (spo_irrefl Hlt) in Hxx. discriminate.
  - intros x y z Hxy Hyz.
    apply orb_true_iff in Hxy. apply orb_true_iff in Hyz.
    apply orb_true_iff.
    destruct Hxy as [Hxy|Hxy]; [|apply Heq in Hxy; subst y; exact Hyz].
    destruct Hyz as [Hyz|Hyz]; [|apply Heq in Hyz; subst z; left; exact Hxy].
    left. exact (spo_trans Hlt x y z Hxy Hyz).
  - intros x y. f_equal.
    destruct (eq x y) eqn:E1, (eq y x) eqn:E2; try reflexivity.
    + apply Heq in E1. subst y. congruence.
    + apply Heq in E2. subst y. congruence.
Qed.

Lemma pair_eq_decides : decides_equality pair_eq.
Proof.
  intros [a b] [c d]. unfold pair_eq. cbn [fst snd]. split.
  - intro H. apply andb_prop in H. destruct H as [H1 H2].
    apply Z.eqb_eq in H1, H2. subst. reflexivity.
  - intro H. injection H as -> ->. rewrite !Z.eqb_refl. reflexivity.
Defined.

Lemma pair_lt_strict_partial_order : strict_partial_order pair_lt.
Proof.
  constructor.
  - intros [a b]. unfold pair_lt, pair_eq. cbn [fst snd].
    rewrite !Z.eqb_refl. cbn. apply andb_false_r.
  - intros [a b] [c d] [e f]. unfold pair_lt. cbn [fst snd].
    intros H1 H2.
    apply andb_prop in H1. destruct H1 as [H1 N1].
    apply andb_prop in H1. destruct H1 as [H1a H1b].
    apply andb_prop in H2. destruct H2 as [H2 N2].
    apply andb_prop in H2. destruct H2 as [H2a H2b].
    apply Z.leb_le in H1a, H1b, H2a, H2b.
    apply negb_true_iff in N1, N2.
    apply andb_true_intro. split.
    + apply andb_true_intro. split; apply Z.leb_le; lia.
    + apply negb_true_iff.
      destruct (pair_eq (a, b) (e, f)) eqn:E; [|reflexivity].
      apply pair_eq_decides in E. injection E as -> ->.
      assert (c = e) by lia. assert (d = f) by lia. subst.
      rewrite (proj2 (pair_eq_decides (e, f) (e, f)) eq_refl) in N1.
      discriminate.
Defined.

Lemma partially_ordered_is_partial_order_witness :
  partially_ordered_TT.operator_le pair_lt pair_eq (1, 1)%Z (1, 2)%Z = true /\
  partially_ordered_TT.operator_le pair_lt pair_eq (1, 1)%Z (2, 2)%Z = true.
Proof.
  destruct (partially_ordered_is_partial_order
              pair_lt_strict_partial_order pair_eq_decides)
    as (_ & _ & Htrans & _).
  split; [reflexivity|].
  apply (Htrans (1, 1)%Z (1, 2)%Z (2, 2)%Z); reflexivity.
Defined.

(** X16: a type ordered by an asymmetric [<] alone, with the [==] of
    [equivalent<T>]: exactly one of [x < y], [x == y], [y < x] holds, so
    the comparisons [less_than_comparable<T>] derives are those of a total
    preorder, [x <= y] being [x < y] or [x == y]. *)
Theorem equivalent_is_trichotomous
    (T : Type) (lt : T -> T -> bool) (Hasym : asymmetric lt) :
  trichotomous lt (equivalent_TT.operator_eq lt) /\
  (forall x y,
      less_than_comparable_TT.operator_le lt x y =
      lt x y || equivalent_TT.operator_eq lt x y) /\
  (forall x y,
      less_than_comparable_TT.operator_ge lt x y =
      less_than_comparable_TT.operator_gt lt x y ||
      equivalent_TT.operator_eq lt x y).
Proof.
  unfold trichotomous. unfold_comparisons.
  repeat split; intros x y;
    destruct (lt x y) eqn:E1, (lt y x) eqn:E2; cbn; auto 6;
    apply Hasym in E1; congruence.
Qed.

Lemma equivalent_is_trichotomous_witness :
  less_than_comparable_TT.operator_le Z.ltb 2%Z 2%Z =
  Z.ltb 2 2 || equivalent_TT.operator_eq Z.ltb 2%Z 2%Z.
Proof.
  destruct (equivalent_is_trichotomous Zltb_asymmetric) as (_ & H & _).
  apply H.
Defined.

(** X22: [partially_ordered<T, U>] against [less_than_comparable<T, U>]
    when at most one of [t < u], [t == u], [t > u] holds: each [<=] and
    [>=] of [less_than_comparable], with the [T] or the [U] operand first,
    is that of [partially_ordered] or the operands being incomparable; so
    the two units agree exactly on comparable operands. *)
Theorem partially_ordered_TU_refines
    (T U : Type) (lt gt eq : T -> U -> bool)
    (Hone : at_most_one lt gt eq) (x : T) (y : U) :
  let apart := negb (lt x y) && negb (eq x y) && negb (gt x y) in
  less_than_comparable_TU.operator_le gt x y =
    partially_ordered_TU.operator_le lt eq x y || apart /\
  less_than_comparable_TU.operator_ge lt x y =
    partially_ordered_TU.operator_ge gt eq x y || apart /\
  less_than_comparable_TU.operator_le_r lt y x =
    partially_ordered_TU.operator_le_r gt eq y x || apart /\
  less_than_comparable_TU.operator_ge_r gt y x =
    partially_ordered_TU.operator_ge_r lt eq y x || apart.
Proof.
  cbv zeta.
  unfold less_than_comparable_TU.operator_le, less_than_comparable_TU.operator_ge,
    less_than_comparable_TU.operator_le_r, less_than_comparable_TU.operator_ge_r,
    partially_ordered_TU.operator_le, partially_ordered_TU.operator_ge,
    partially_ordered_TU.operator_le_r, partially_ordered_TU.operator_ge_r.
  destruct (Hone x y) as [Hlt Heq].
  destruct (lt x y) eqn:E1.
  - destruct (Hlt eq_refl) as [-> ->]. repeat split.
  - destruct (eq x y) eqn:E2.
    + rewrite (Heq eq_refl). repeat split.
    + destruct (gt x y); repeat split.
Qed.

Lemma Z_nat_at_most_one : at_most_one Z_lt_nat Z_gt_nat Z_eq_nat.
Proof.
  intros x y. unfold Z_lt_nat, Z_gt_nat, Z_eq_nat.
  destruct (Z.ltb_spec x (Z.of_nat y)), (Z.eqb_spec x (Z.of_nat y)),
    (Z.ltb_spec (Z.of_nat y) x); try lia; split; intro; try discriminate;
    auto.
Defined.

Lemma partially_ordered_TU_refines_witness :
  less_than_comparable_TU.operator_le_r Z_lt_nat 3%nat 5%Z =
  partially_ordered_TU.operator_le_r Z_gt_nat Z_eq_nat 3%nat 5%Z
  || negb (Z_lt_nat 5%Z 3%nat) && negb (Z_eq_nat 5%Z 3%nat)
     && negb (Z_gt_nat 5%Z 3%nat).
Proof.
  destruct (partially_ordered_TU_refines Z_nat_at_most_one 5%Z 3%nat)
    as (_ & _ & H & _).
  exact H.
Defined.

(** X23: the comparisons with the [U] operand first are the mirror images
    of those with the [T] operand first, whatever the primitives do: in
    [less_than_comparable<T, U>], [partially_ordered<T, U>] and
    [equality_comparable<T, U>], [u <= t] is [t >= u], [u >= t] is
    [t <= u], [u < t] is [t > u], [u > t] is [t < u], [u == t] is [t == u]
    and [u != t] is [t != u]. *)
Theorem reversed_comparisons_mirror
    (T U : Type) (lt gt eq : T -> U -> bool) (x : T) (y : U) :
  less_than_comparable_TU.operator_le_r lt y x =
    less_than_comparable_TU.operator_ge lt x y /\
  less_than_comparable_TU.operator_ge_r gt y x =
    less_than_comparable_TU.operator_le gt x y /\
  less_than_comparable_TU.operator_lt_r gt y x = gt x y /\
  less_than_comparable_TU.operator_gt_r lt y x = lt x y /\
  partially_ordered_TU.operator_le_r gt eq y x =
    partially_ordered_TU.operator_ge gt eq x y /\
  partially_ordered_TU.operator_ge_r lt eq y x =
    partially_ordered_TU.operator_le lt eq x y /\
  partially_ordered_TU.operator_lt_r gt y x = gt x y /\
  partially_ordered_TU.operator_gt_r lt y x = lt x y /\
  equality_comparable_TU.operator_eq_r eq y x = eq x y /\
  equality_comparable_TU.operator_ne_r eq y x =
    equality_comparable_TU.operator_ne eq x y.
Proof.
  repeat split.
Qed.

(* ================================================================== *)
(** * Further properties of the step, binary and iterator units *)
(* ================================================================== *)

(** X17: [unit_steppable]: when the prefix decrement undoes the prefix
    increment, [a = x++] followed by [b = x--] restores [x]; [a] is the
    original value, [b] the incremented one, and each prefix operator has
    run once. *)
Theorem post_inc_then_post_dec
    (T : Type) (pre_inc pre_dec : T -> T)
    (Hundo : forall v, pre_dec (pre_inc v) = v) (x : step.cell T) :
  step.bind (step.operator_post_inc pre_inc) (fun a =>
  step.bind (step.operator_post_dec pre_dec) (fun b =>
  step.ret (a, b))) x =
  ((step.object x, pre_inc (step.object x)),
   {| step.object := step.object x;
      step.inc_calls := S (step.inc_calls x);
      step.dec_calls := S (step.dec_calls x) |}).
Proof.
  unfold step.bind, step.operator_post_inc, step.operator_post_dec,
    step.read, step.prefix_inc, step.prefix_dec, step.ret.
  cbn. rewrite Hundo. reflexivity.
Qed.

Lemma post_inc_then_post_dec_witness :
  step.bind (step.operator_post_inc Z.succ) (fun a =>
  step.bind (step.operator_post_dec Z.pred) (fun b =>
  step.ret (a, b)))
    {| step.object := 7%Z; step.inc_calls := 0; step.dec_calls := 0 |} =
  ((7%Z, 8%Z),
   {| step.object := 7%Z; step.inc_calls := 1; step.dec_calls := 1 |}).
Proof.
  assert (Hundo : forall v : Z, Z.pred (Z.succ v) = v)
    by (intro v; apply Z.pred_succ).
  apply (post_inc_then_post_dec Z.succ Z.pred Hundo).
Defined.

(** X18: the swapped form of the commutative macro and the reversed form
    of the non-commutative macro give the same [U op T] under the two
    conditions the names suggest: [T op= U] acts as [T op= T] on the
    converted operand, and the operation is commutative. *)
Theorem swapped_form_is_reversed_form
    (T U : Type) (convert : U -> T)
    (assign_TU : T -> U -> T) (assign_TT : T -> T -> T)
    (Hconv : forall t u, assign_TU t u = assign_TT t (convert u))
    (Hcomm : forall a b, assign_TT a b = assign_TT b a)
    (x : U) (y : T) :
  binary_operator.operator_op_swapped assign_TU x y =
  binary_operator.operator_rop convert assign_TT x y.
Proof.
  unfold binary_operator.operator_op_swapped, binary_operator.operator_rop.
  cbv zeta. rewrite Hconv. apply Hcomm.
Qed.

Lemma swapped_form_is_reversed_form_witness :
  binary_operator.operator_op_swapped
    (fun (t : Z) (u : nat) => (t + Z.of_nat u)%Z) 2%nat 5%Z =
  binary_operator.operator_rop Z.of_nat Z.add 2%nat 5%Z.
Proof.
  apply (swapped_form_is_reversed_form Z.of_nat
           (fun (t : Z) (u : nat) => (t + Z.of_nat u)%Z) Z.add).
  - intros t u. reflexivity.
  - intros a b. lia.
Defined.

(** For subtraction the swapped form would be wrong. *)
Example swapped_subtraction_differs :
  binary_operator.operator_op_swapped
    (fun (t : Z) (u : nat) => (t - Z.of_nat u)%Z) 2%nat 5%Z = 3%Z /\
  binary_operator.operator_rop Z.of_nat Z.sub 2%nat 5%Z = (-3)%Z.
Proof. split; reflexivity. Qed.

Section OutputIterator.
Variable den : ty -> Type.
Variable P : run.primitives den.

(** X19: an output iterator built on [output_iterator_helper<T>] that
    defines no [*] and no prefix [++] of its own: [*it] and [++it] are the
    iterator, and [it++], derived by [incrementable] from that [++],
    returns the iterator and leaves it as it was. *)
Theorem output_iterator_steps_in_place
    (T : ty) (it : den T) (fuel : nat)
    (Hderef : run.p_deref P T = None) (Hinc : run.p_inc P T = None)
    (Hfuel : 8 <= fuel) :
  let ops := derived_ops [ output_iterator_helper<<T>> ] in
  let self := run.VObj den T it in
  run.call P ops fuel Deref [self] = Some (self, self) /\
  run.call P ops fuel PreInc [self] = Some (self, self) /\
  run.call P ops fuel PostInc [self; run.VInt den 0] = Some (self, self).
Proof.
  cbv zeta. compute_derived_ops.
  repeat split; least_fuel Hfuel; run_bodies; reflexivity.
Qed.
End OutputIterator.

Lemma output_iterator_steps_in_place_witness :
  run.call (bare Zden) (derived_ops [ output_iterator_helper<<"Out"%string>> ])
    8 PostInc [run.VObj Zden "Out"%string 5%Z; run.VInt Zden 0] =
  Some (run.VObj Zden "Out"%string 5%Z, run.VObj Zden "Out"%string 5%Z).
Proof.
  assert (Hderef : run.p_deref (bare Zden) "Out"%string = None)
    by reflexivity.
  assert (Hinc : run.p_inc (bare Zden) "Out"%string = None) by reflexivity.
  assert (Hfuel : 8 <= 8) by lia.
  destruct (output_iterator_steps_in_place (bare Zden) "Out"%string 5%Z
              Hderef Hinc Hfuel) as (_ & _ & H).
  exact H.
Defined.

(** X20: the iterator helpers hand their arguments on consistently.  In
    [random_access_iterator_helper<T, V, D, P, R>] the member aliases are
    the category tag, [V], [D], [P] and [R]; [operator->] returns the
    [pointer] alias, [operator[]] takes the [difference_type] alias and
    returns the [reference] alias.  The other helpers declare the tag of
    their category, and [output_iterator_helper] declares [void] for the
    four types. *)
Theorem iterator_helper_types (T V D P R : ty) :
  let declared tag :=
    [ ("iterator_category", tag); ("value_type", V);
      ("difference_type", D); ("pointer", P); ("reference", R) ]%string in
  aliases [ random_access_iterator_helper<<T, V, D, P, R>> ] =
    declared "random_access_iterator_tag"%string /\
  map (fun d => (d_op d, d_ret d, map snd (d_params d)))
    (filter (fun d => match d_op d with
                      | Arrow | Subscript => true
                      | _ => false
                      end)
       (derived_ops [ random_access_iterator_helper<<T, V, D, P, R>> ])) =
    [ (Arrow, P, []); (Subscript, R, [D]) ] /\
  aliases [ bidirectional_iterator_helper<<T, V, D, P, R>> ] =
    declared "bidirectional_iterator_tag"%string /\
  aliases [ forward_iterator_helper<<T, V, D, P, R>> ] =
    declared "forward_iterator_tag"%string /\
  aliases [ input_iterator_helper<<T, V, D, P, R>> ] =
    declared "input_iterator_tag"%string /\
  aliases [ output_iterator_helper<<T>> ] =
    [ ("iterator_category", "output_iterator_tag"); ("value_type", "void");
      ("difference_type", "void"); ("pointer", "void");
      ("reference", "void") ]%string.
Proof.
  cbv zeta. unfold aliases, derived_ops, instantiations.
  cbn [flat_map app].
  destruct (ty_eqb T D) eqn:E; [apply String.eqb_eq in E; subst D|];
    repeat split; expand_lineage; dedup_instantiations;
    cbn [flat_map]; unfold own_aliases; unfold_header; decide_types;
    reflexivity.
Qed.

Section MissingPrimitive.
Variable den : ty -> Type.
Variable P : run.primitives den.

(** X21: a binary operator derived by a forward generator has no value
    when the type lacks the compound assignment it is built on, whatever
    the fuel: the operator cannot be used, it does not fall back on
    anything else. *)
Theorem forward_operator_needs_assignment
    (u : unit_name) (op : binop) (T U : ty) (x : den T) (y : den U)
    (fuel : nat)
    (Hu : In (u, op) forward_generators)
    (Hnone : run.p_assign P op T U = None) :
  run.call P (own_ops u<<T, U>>) fuel (Bin op)
    [run.VObj den T x; run.VObj den U y] = None.
Proof.
  destruct (run.call P (own_ops u<<T, U>>) fuel (Bin op)
              [run.VObj den T x; run.VObj den U y]) as [r|] eqn:Hr;
    [|reflexivity].
  exfalso.
  apply call_fuel_mono with (m := 6 + fuel) in Hr; [|lia].
  revert Hr. cbn [Nat.add].
  cbn in Hu.
  repeat (destruct Hu as [Hu|Hu]; [injection Hu as <- <-|]);
    try contradiction;
    (destruct (ty_eqb T U) eqn:E; [apply String.eqb_eq in E; subst U|]);
    run_bodies; rewrite Hnone; discriminate.
Qed.
End MissingPrimitive.

Lemma forward_operator_needs_assignment_witness :
  run.call (bare Zden) (own_ops subtractable<<"T"%string, "U"%string>>) 9
    (Bin Minus)
    [run.VObj Zden "T"%string 5%Z; run.VObj Zden "U"%string 3%Z] = None.
Proof.
  assert (Hu : In (subtractable, Minus) forward_generators)
    by (simpl; auto).
  assert (Hnone :
            run.p_assign (bare Zden) Minus "T"%string "U"%string = None)
    by reflexivity.
  exact (forward_operator_needs_assignment (bare Zden) "T"%string "U"%string
           5%Z 3%Z 9 Hu Hnone).
Defined.
